(** * DPLL.js: the memoising DPLL solver, embedded and checked against its specification

    The development follows [src/DPLL.js].  JavaScript values are modelled as
    the program uses them:

    - a literal is a JS number holding an integer; it is a [Z] here (exact for
      the safe integers, which is where [Math.abs], [>] and [<] on numbers and
      on [Z] agree and where a number prints as its decimal digits);
    - an assignment is a plain JS object whose own properties are all booleans.
      The order of the own properties is observable through [JSON.stringify],
      so an object is the ordered list of its properties, with the order that
      ECMAScript prescribes (OrdinaryOwnPropertyKeys): array-index names first,
      ascending, then every other name in the order of creation;
    - the global [memo] is an object used as a map from strings to outcomes, a
      [gmap string Outcome]; an absent entry is JS [undefined];
    - [dpll] is recursive without a structural argument (and does not return
      on every input), so it takes fuel and threads the memo explicitly. *)

From Stdlib Require Import Ascii.
From stdpp Require Import gmap strings list pretty.

Local Open Scope Z_scope.

(** ** Property names and objects *)

(** The property names the program can create: [Math.abs(lit)] of an integer
    literal, [undefined] (line 55, when the destructured array is empty) and
    [NaN] ([Math.abs(undefined)], line 51). *)
Inductive PropKey :=
  | KNum (n : Z)
  | KUndefined
  | KNaN.

Global Instance PropKey_eq_dec : EqDecision PropKey.
Proof. solve_decision. Defined.

(** ToString of a property name. *)
Definition ToString (k : PropKey) : string :=
  match k with
  | KNum n => pretty n
  | KUndefined => "undefined"
  | KNaN => "NaN"
  end.

(** An array index is a canonical numeric name below 2^32 - 1. *)
Definition isArrayIndex (k : PropKey) : bool :=
  match k with
  | KNum n => (0 <=? n) && (n <? 2 ^ 32 - 1)
  | _ => false
  end.

Definition JSObject : Type := list (PropKey * bool).

(** [assignment[k]]: [None] is [undefined]. *)
Fixpoint obj_get (o : JSObject) (k : PropKey) : option bool :=
  match o with
  | [] => None
  | (k', v) :: o' => if decide (k' = k) then Some v else obj_get o' k
  end.

(** Writing an existing property keeps its place. *)
Fixpoint obj_update (k : PropKey) (v : bool) (o : JSObject) : JSObject :=
  match o with
  | [] => []
  | (k', v') :: o' =>
      if decide (k' = k) then (k, v) :: o' else (k', v') :: obj_update k v o'
  end.

(** [comes_before k k']: the new array index [k] is enumerated before [k']. *)
Definition comes_before (k k' : PropKey) : bool :=
  match k, k' with
  | KNum n, KNum m => if isArrayIndex k' then n <? m else true
  | _, _ => true
  end.

(** A new array-index property goes to its ascending place among the array
    indices, before every other name. *)
Fixpoint obj_add_index (k : PropKey) (v : bool) (o : JSObject) : JSObject :=
  match o with
  | [] => [(k, v)]
  | (k', v') :: o' =>
      if comes_before k k' then (k, v) :: o else (k', v') :: obj_add_index k v o'
  end.

(** [{ ...o, [k]: v }]: a copy of [o] (same properties, same order) in which
    [k] is then set to [v]. *)
Definition obj_set (o : JSObject) (k : PropKey) (v : bool) : JSObject :=
  match obj_get o k with
  | Some _ => obj_update k v o
  | None => if isArrayIndex k then obj_add_index k v o else o ++ [(k, v)]
  end.

(** ** JSON.stringify of an assignment *)

Definition quote : ascii := "034"%char.

Definition json_bool (b : bool) : string := if b then "true" else "false".

Definition json_property (e : PropKey * bool) : string :=
  String quote (ToString e.1 +:+ String quote (":" +:+ json_bool e.2)).

(** What follows the first property: the other properties, each after a comma,
    and the closing brace. *)
Fixpoint json_rest (o : JSObject) : string :=
  match o with
  | [] => "}"
  | e :: o' => "," +:+ json_property e +:+ json_rest o'
  end.

Definition JSON_stringify (o : JSObject) : string :=
  match o with
  | [] => "{}"
  | e :: o' => "{" +:+ json_property e +:+ json_rest o'
  end.

(** ** Outcomes and the memo *)

(** What [dpll] returns and what the memo stores: an assignment object or
    [null]. *)
Inductive Outcome :=
  | Assignment (a : JSObject)
  | null.

Global Instance Outcome_eq_dec : EqDecision Outcome.
Proof. solve_decision. Defined.

Abbreviation Memo := (gmap string Outcome).

(** ** The tests of [dpll], in the order of the source *)

Abbreviation Clause := (list Z).

(** [assignment[Math.abs(lit)] === (lit > 0)] *)
Definition lit_true (assignment : JSObject) (lit : Z) : bool :=
  bool_decide (obj_get assignment (KNum (Z.abs lit)) = Some (0 <? lit)).

(** [assignment[Math.abs(lit)] === (lit < 0)] *)
Definition lit_false (assignment : JSObject) (lit : Z) : bool :=
  bool_decide (obj_get assignment (KNum (Z.abs lit)) = Some (lit <? 0)).

(** [assignment[Math.abs(lit)] === undefined] *)
Definition lit_unassigned (assignment : JSObject) (lit : Z) : bool :=
  bool_decide (obj_get assignment (KNum (Z.abs lit)) = None).

(** Line 36: [clauses.every(clause => clause.some(lit => ...))]. *)
Definition satisfied (clauses : list Clause) (assignment : JSObject) : bool :=
  forallb (fun clause => existsb (lit_true assignment) clause) clauses.

(** Line 42: [clauses.some(clause => clause.every(lit => ...))]. *)
Definition conflict (clauses : list Clause) (assignment : JSObject) : bool :=
  existsb (fun clause => forallb (lit_false assignment) clause) clauses.

(** Line 48: the first clause with exactly one literal whose variable is
    unassigned. *)
Definition unitClause (clauses : list Clause) (assignment : JSObject)
  : option Clause :=
  find (fun clause =>
          (length (filter (fun lit => lit_unassigned assignment lit = true) clause)
             =? 1)%nat)
       clauses.

(** Line 50: the first literal of that clause whose variable is unassigned. *)
Definition unitLit (clause : Clause) (assignment : JSObject) : option Z :=
  find (lit_unassigned assignment) clause.

(** Line 51: the property written for [unitLit]; [Math.abs(undefined)] is
    [NaN] and [undefined > 0] is [false]. *)
Definition unit_binding (l : option Z) : PropKey * bool :=
  match l with
  | Some lit => (KNum (Z.abs lit), 0 <? lit)
  | None => (KNaN, false)
  end.

(** Line 55: [const [variable] = clauses.flat().map(Math.abs).filter(...)]. *)
Definition variable (clauses : list Clause) (assignment : JSObject)
  : option Z :=
  head (filter (fun v => obj_get assignment (KNum v) = None)
               (map Z.abs (concat clauses))).

(** The computed property name [[variable]]. *)
Definition variable_key (v : option Z) : PropKey :=
  match v with
  | Some n => KNum n
  | None => KUndefined
  end.

(** ** dpll *)

Fixpoint dpll (fuel : nat) (clauses : list Clause) (assignment : JSObject)
  (memo : Memo) : option (Outcome * Memo) :=
  match fuel with
  | O => None
  | S fuel =>
      let key := JSON_stringify assignment in
      match memo !! key with
      | Some cached => Some (cached, memo)
      | None =>
          if satisfied clauses assignment then
            Some (Assignment assignment, <[key := Assignment assignment]> memo)
          else if conflict clauses assignment then
            Some (null, <[key := null]> memo)
          else
            match unitClause clauses assignment with
            | Some clause =>
                let '(k, b) := unit_binding (unitLit clause assignment) in
                dpll fuel clauses (obj_set assignment k b) memo
            | None =>
                let k := variable_key (variable clauses assignment) in
                match dpll fuel clauses (obj_set assignment k true) memo with
                | None => None
                | Some (Assignment r, memo1) =>
                    Some (Assignment r, <[key := Assignment r]> memo1)
                | Some (null, memo1) =>
                    match dpll fuel clauses (obj_set assignment k false) memo1 with
                    | None => None
                    | Some (result, memo2) =>
                        Some (result, <[key := result]> memo2)
                    end
                end
            end
      end
  end.

(** The clause set of the program (lines 2-7) and its run (line 67): [dpll]
    on the empty assignment with the memo still empty. *)
Definition clauses : list Clause :=
  [[1; -3; 4]; [-1; 2]; [-2; 3]; [-4]].

Definition result (fuel : nat) : option (Outcome * Memo) :=
  dpll fuel clauses [] ∅.

(** ** What the statements below speak about *)

(** An assignment that satisfies [clauses]: every variable [false]. *)
Definition all_false : JSObject :=
  [(KNum 1, false); (KNum 2, false); (KNum 3, false); (KNum 4, false)].

(** The number of variables an assignment binds: its own properties. *)
Definition bound (assignment : JSObject) : nat := length assignment.

(** The distinct variables that occur in the formula. *)
Definition variables (clauses : list Clause) : gset Z :=
  list_to_set (map Z.abs (concat clauses)).

(** Those of them that the assignment leaves unassigned. *)
Definition unassignedVars (clauses : list Clause) (assignment : JSObject)
  : gset Z :=
  filter (fun v => obj_get assignment (KNum v) = None) (variables clauses).

(** The assignments on which a call that passed lines 31-45 calls [dpll]
    again: the one of line 51, or the two of lines 58 and 59. *)
Definition recursive_calls (clauses : list Clause) (assignment : JSObject)
  : list JSObject :=
  match unitClause clauses assignment with
  | Some clause =>
      let '(k, b) := unit_binding (unitLit clause assignment) in
      [obj_set assignment k b]
  | None =>
      let k := variable_key (variable clauses assignment) in
      [obj_set assignment k true; obj_set assignment k false]
  end.

(** The assignments the recursion can reach from the empty one: each call
    that neither finds the formula satisfied nor a clause falsified moves on
    to its [recursive_calls] (a cache hit only cuts this short). *)
Inductive reached (clauses : list Clause) : JSObject -> Prop :=
  | reached_root : reached clauses []
  | reached_call assignment assignment' :
      reached clauses assignment ->
      satisfied clauses assignment = false ->
      conflict clauses assignment = false ->
      assignment' ∈ recursive_calls clauses assignment ->
      reached clauses assignment'.

(** The literals the specification admits: nonzero integers. *)
Definition nonzero_literals (clauses : list Clause) : Prop :=
  Forall (Forall (fun lit => lit ≠ 0)) clauses.

(** An assignment built from the empty object by adding bindings one after
    the other, as the search path does with [{ ...assignment, [v]: b }]. *)
Definition build (bindings : list (Z * bool)) : JSObject :=
  fold_left (fun o '(v, b) => obj_set o (KNum v) b) bindings [].

(** A memo as earlier calls of [dpll] leave it: it starts empty and every call,
    on a formula that [allowed] admits, hands its memo to the next. *)
Inductive populated (allowed : list Clause -> Prop) : Memo -> Prop :=
  | populated_empty : populated allowed ∅
  | populated_call memo fuel clauses assignment outcome memo' :
      populated allowed memo ->
      allowed clauses ->
      dpll fuel clauses assignment memo = Some (outcome, memo') ->
      populated allowed memo'.

(** A string without the character [c]. *)
Fixpoint without (c : ascii) (s : string) : Prop :=
  match s with
  | EmptyString => True
  | String c' s' => c' ≠ c ∧ without c s'
  end.

(** The characters of a printed integer: the digits and the minus sign. *)
Definition is_numeral (c : ascii) : bool :=
  let n := nat_of_ascii c in
  ((48 <=? n) && (n <=? 57) || (n =? 45))%nat.

Fixpoint numeral (s : string) : Prop :=
  match s with
  | EmptyString => True
  | String c s' => is_numeral c = true ∧ numeral s'
  end.

(** Every assignment the memo stores satisfies the formula (the invariant
    behind soundness). *)
Definition memo_sound (clauses : list Clause) (memo : Memo) : Prop :=
  ∀ key r, memo !! key = Some (Assignment r) -> satisfied clauses r = true.

(** The search of [dpll] with the memo taken out: lines 35-63 without the
    lookup and the stores.  It is the yardstick for what a memo may hold. *)
Fixpoint search (fuel : nat) (clauses : list Clause) (assignment : JSObject)
  : option Outcome :=
  match fuel with
  | O => None
  | S fuel =>
      if satisfied clauses assignment then Some (Assignment assignment)
      else if conflict clauses assignment then Some null
      else
        match unitClause clauses assignment with
        | Some clause =>
            let '(k, b) := unit_binding (unitLit clause assignment) in
            search fuel clauses (obj_set assignment k b)
        | None =>
            let k := variable_key (variable clauses assignment) in
            match search fuel clauses (obj_set assignment k true) with
            | None => None
            | Some (Assignment r) => Some (Assignment r)
            | Some null => search fuel clauses (obj_set assignment k false)
            end
        end
  end.

(** A memo is faithful to a formula when each entry under the key of an
    assignment is what the search from that assignment returns. *)
Definition memo_faithful (clauses : list Clause) (memo : Memo) : Prop :=
  ∀ assignment outcome,
    memo !! JSON_stringify assignment = Some outcome ->
    ∃ fuel, search fuel clauses assignment = Some outcome.

(** The order among array indices. *)
Definition key_lt (k1 k2 : PropKey) : Prop :=
  match k1, k2 with
  | KNum n, KNum m => n < m
  | _, _ => False
  end.

(** An object whose names are all array indices, in ascending order. *)
Fixpoint ascending (o : JSObject) : Prop :=
  match o with
  | [] => True
  | e :: o' =>
      isArrayIndex e.1 = true ∧ Forall (fun e' => key_lt e.1 e'.1) o' ∧
      ascending o'
  end.

(** ** The report of line 68 and further notions *)

(** Line 68: the line handed to [console.log]; an object is truthy (the empty
    one too) and [null] is not. *)
Definition report (result : Outcome) : string :=
  match result with
  | Assignment a => "SATISFIABLE with assignment: " +:+ JSON_stringify a
  | null => "UNSATISFIABLE"
  end.

(** [extends a r]: every binding of [a] is a binding of [r]. *)
Definition extends (a r : JSObject) : Prop :=
  ∀ k v, obj_get a k = Some v -> obj_get r k = Some v.

(** A call reaches line 51: no return on lines 36-45 and a clause found on
    line 48. *)
Definition delegates (clauses : list Clause) (assignment : JSObject) : bool :=
  negb (satisfied clauses assignment) && negb (conflict clauses assignment) &&
  bool_decide (is_Some (unitClause clauses assignment)).

(** A call reaches line 58 with nothing to branch on: the formula is neither
    satisfied nor in conflict, no clause has a single unassigned literal and
    [variable] is [undefined]. *)
Definition no_move (clauses : list Clause) (assignment : JSObject) : Prop :=
  satisfied clauses assignment = false ∧ conflict clauses assignment = false ∧
  unitClause clauses assignment = None ∧ variable clauses assignment = None.

(** * Properties *)

(** ** Reading and writing properties *)

Section object.
Implicit Types (o : JSObject) (k : PropKey) (v : bool).

Lemma obj_get_update_eq o k v :
  is_Some (obj_get o k) -> obj_get (obj_update k v o) k = Some v.
Proof.
  induction o as [|[k1 v1] o IH]; simpl; intros [x Hx]; [done|].
  destruct (decide (k1 = k)) as [->|Hne]; simpl.
  - by rewrite decide_True.
  - rewrite decide_False by done. eauto.
Qed.

Lemma obj_get_update_ne o k v k' :
  k ≠ k' -> obj_get (obj_update k v o) k' = obj_get o k'.
Proof.
  intros Hne. induction o as [|[k1 v1] o IH]; simpl; [done|].
  destruct (decide (k1 = k)) as [->|Hk1]; simpl.
  - by rewrite !decide_False.
  - by rewrite IH.
Qed.

Lemma obj_get_add_index_eq o k v :
  obj_get o k = None -> obj_get (obj_add_index k v o) k = Some v.
Proof.
  induction o as [|[k1 v1] o IH]; simpl; intros Hget.
  - by rewrite decide_True.
  - destruct (decide (k1 = k)) as [->|Hk1]; [done|].
    destruct (comes_before k k1); simpl.
    + by rewrite decide_True.
    + rewrite decide_False by done. auto.
Qed.

Lemma obj_get_add_index_ne o k v k' :
  k ≠ k' -> obj_get (obj_add_index k v o) k' = obj_get o k'.
Proof.
  intros Hne. induction o as [|[k1 v1] o IH]; simpl.
  - by rewrite decide_False.
  - destruct (comes_before k k1); simpl.
    + by rewrite decide_False.
    + by rewrite IH.
Qed.

Lemma obj_get_app o o' k :
  obj_get (o ++ o') k =
  match obj_get o k with Some x => Some x | None => obj_get o' k end.
Proof.
  induction o as [|[k1 v1] o IH]; simpl; [done|].
  by destruct (decide (k1 = k)).
Qed.

(** Reading after [{ ...o, [k]: v }]. *)
Lemma obj_get_set o k v k' :
  obj_get (obj_set o k v) k' = if decide (k = k') then Some v else obj_get o k'.
Proof.
  unfold obj_set. destruct (obj_get o k) as [x|] eqn:Hget.
  - destruct (decide (k = k')) as [<-|Hne].
    + apply obj_get_update_eq. by rewrite Hget.
    + by apply obj_get_update_ne.
  - destruct (isArrayIndex k).
    + destruct (decide (k = k')) as [<-|Hne].
      * by apply obj_get_add_index_eq.
      * by apply obj_get_add_index_ne.
    + rewrite obj_get_app. simpl.
      destruct (decide (k = k')) as [<-|Hne]; [by rewrite Hget|].
      by destruct (obj_get o k').
Qed.

Lemma length_obj_add_index o k v :
  length (obj_add_index k v o) = S (length o).
Proof.
  induction o as [|[k1 v1] o IH]; simpl; [done|].
  destruct (comes_before k k1); simpl; by rewrite ?IH.
Qed.

(** A binding of an unassigned name is one more own property. *)
Lemma bound_obj_set_fresh o k v :
  obj_get o k = None -> bound (obj_set o k v) = S (bound o).
Proof.
  intros Hget. unfold bound, obj_set. rewrite Hget.
  destruct (isArrayIndex k).
  - apply length_obj_add_index.
  - rewrite length_app. simpl. lia.
Qed.
End object.

(** ** More fuel changes nothing *)

Lemma dpll_fuel_mono fuel fuel' clauses assignment memo r :
  dpll fuel clauses assignment memo = Some r ->
  (fuel <= fuel')%nat ->
  dpll fuel' clauses assignment memo = Some r.
Proof.
  revert fuel' assignment memo r.
  induction fuel as [|fuel IH]; intros fuel' assignment memo r; [done|].
  intros Hrun Hle. destruct fuel' as [|fuel']; [lia|].
  assert (fuel <= fuel')%nat as Hle' by lia.
  simpl in *.
  destruct (memo !! JSON_stringify assignment); [done|].
  destruct (satisfied clauses assignment); [done|].
  destruct (conflict clauses assignment); [done|].
  destruct (unitClause clauses assignment) as [clause|].
  - destruct (unit_binding (unitLit clause assignment)) as [k b]. eauto.
  - destruct (dpll fuel clauses _ memo) as [[[r1|] memo1]|] eqn:Hfirst;
      [| |done]; rewrite (IH _ _ _ _ Hfirst Hle'); [done|].
    destruct (dpll fuel clauses _ memo1) as [[r2 memo2]|] eqn:Hsecond; [|done].
    by rewrite (IH _ _ _ _ Hsecond Hle').
Qed.

(** The same for the outcome alone. *)
Lemma dpll_outcome_mono fuel fuel' clauses assignment memo outcome :
  fst <$> dpll fuel clauses assignment memo = Some outcome ->
  (fuel <= fuel')%nat ->
  fst <$> dpll fuel' clauses assignment memo = Some outcome.
Proof.
  destruct (dpll fuel clauses assignment memo) as [r|] eqn:Hrun; [|done].
  intros Hout Hle. by rewrite (dpll_fuel_mono _ _ _ _ _ _ Hrun Hle).
Qed.

(** ** Soundness *)

Lemma satisfied_spec clauses assignment :
  satisfied clauses assignment = true <->
  Forall (fun clause =>
            Exists (fun lit =>
                      obj_get assignment (KNum (Z.abs lit)) = Some (0 <? lit))
                   clause)
         clauses.
Proof.
  unfold satisfied. rewrite forallb_forall, Forall_forall.
  apply forall_proper; intros clause.
  rewrite <-list_elem_of_In.
  apply forall_proper; intros _.
  rewrite existsb_exists, Exists_exists.
  apply exist_proper; intros lit.
  unfold lit_true. by rewrite <-list_elem_of_In, bool_decide_eq_true.
Qed.

Lemma memo_sound_empty clauses : memo_sound clauses ∅.
Proof. intros key r Hget. by rewrite lookup_empty in Hget. Qed.

Lemma memo_sound_insert clauses memo key outcome :
  memo_sound clauses memo ->
  (∀ r, outcome = Assignment r -> satisfied clauses r = true) ->
  memo_sound clauses (<[key := outcome]> memo).
Proof.
  intros Hmemo Hout key' r. rewrite lookup_insert.
  case_decide; [intros [= ->]; auto | apply Hmemo].
Qed.

Lemma dpll_memo_sound fuel clauses assignment memo outcome memo' :
  memo_sound clauses memo ->
  dpll fuel clauses assignment memo = Some (outcome, memo') ->
  memo_sound clauses memo' ∧
  (∀ r, outcome = Assignment r -> satisfied clauses r = true).
Proof.
  revert assignment memo outcome memo'.
  induction fuel as [|fuel IH]; intros assignment memo outcome memo' Hmemo;
    [done|]; simpl.
  destruct (memo !! JSON_stringify assignment) as [cached|] eqn:Hhit.
  { intros [= -> ->]. split; [done|]. intros r ->. eauto. }
  destruct (satisfied clauses assignment) eqn:Hsat.
  { intros [= <- <-].
    split; [apply memo_sound_insert; [done|]|]; by intros r [= <-]. }
  destruct (conflict clauses assignment).
  { intros [= <- <-]. split; [apply memo_sound_insert|]; done. }
  destruct (unitClause clauses assignment) as [clause|].
  { destruct (unit_binding (unitLit clause assignment)) as [k b]. eauto. }
  destruct (dpll fuel clauses _ memo) as [[[r1|] memo1]|] eqn:Hfirst; [| |done].
  - destruct (IH _ _ _ _ Hmemo Hfirst) as [Hmemo1 Hr1].
    intros [= <- <-]. split; [apply memo_sound_insert|]; auto.
  - destruct (IH _ _ _ _ Hmemo Hfirst) as [Hmemo1 _].
    destruct (dpll fuel clauses _ memo1) as [[r2 memo2]|] eqn:Hsecond; [|done].
    destruct (IH _ _ _ _ Hmemo1 Hsecond) as [Hmemo2 Hr2].
    intros [= <- <-]. split; [apply memo_sound_insert|]; auto.
Qed.

(** C2 (soundness).  Started on an empty memo, whenever [dpll] returns an
    assignment and not [null], every clause of the formula has a literal whose
    variable that assignment binds to the literal's polarity. *)
Theorem dpll_sound fuel clauses assignment r memo' :
  dpll fuel clauses assignment ∅ = Some (Assignment r, memo') ->
  Forall (fun clause =>
            Exists (fun lit => obj_get r (KNum (Z.abs lit)) = Some (0 <? lit))
                   clause)
         clauses.
Proof.
  intros Hrun. apply satisfied_spec.
  destruct (dpll_memo_sound fuel clauses assignment ∅ _ _
              (memo_sound_empty clauses) Hrun) as [_ Hout].
  by apply Hout.
Qed.

Lemma dpll_sound_witness :
  Forall (fun clause =>
            Exists (fun lit =>
                      obj_get [(KNum 1, true)] (KNum (Z.abs lit)) = Some (0 <? lit))
                   clause)
         [[1]].
Proof.
  apply (dpll_sound 2 [[1]] [] [(KNum 1, true)]
           (<[JSON_stringify [(KNum 1, true)] := Assignment [(KNum 1, true)]]> ∅)).
  vm_compute. reflexivity.
Defined.

(** ** Termination *)

Section termination.
Implicit Types (clauses : list Clause) (assignment : JSObject).

Lemma forallb_false {A} (f : A -> bool) (l : list A) :
  forallb f l = false -> ∃ x, x ∈ l ∧ f x = false.
Proof.
  induction l as [|x l IH]; simpl; [done|].
  destruct (f x) eqn:Hfx; simpl.
  - intros Hl. destruct (IH Hl) as (y & Hy & Hfy). exists y. split; [by right|done].
  - intros _. exists x. split; [left|done].
Qed.

Lemma existsb_false {A} (f : A -> bool) (l : list A) x :
  existsb f l = false -> x ∈ l -> f x = false.
Proof.
  intros Hex Hx. destruct (f x) eqn:Hfx; [|done].
  rewrite <-Hex. symmetry. apply existsb_exists. exists x.
  by rewrite <-list_elem_of_In.
Qed.

Lemma elem_of_flat_abs clauses clause lit :
  clause ∈ clauses -> lit ∈ clause -> Z.abs lit ∈ map Z.abs (concat clauses).
Proof.
  intros Hclause Hlit. rewrite list_elem_of_In, in_map_iff.
  exists lit. split; [done|].
  rewrite in_concat. exists clause. by rewrite <-!list_elem_of_In.
Qed.

Lemma elem_of_variables clauses clause lit :
  clause ∈ clauses -> lit ∈ clause -> Z.abs lit ∈ variables clauses.
Proof.
  intros Hclause Hlit. unfold variables. rewrite elem_of_list_to_set.
  by eapply elem_of_flat_abs.
Qed.

Lemma unassignedVars_subseteq clauses assignment :
  unassignedVars clauses assignment ⊆ variables clauses.
Proof. intros v. unfold unassignedVars. rewrite elem_of_filter. tauto. Qed.

(** Binding an unassigned variable of the formula leaves strictly fewer of
    them unassigned. *)
Lemma unassignedVars_obj_set clauses assignment v b :
  v ∈ variables clauses ->
  obj_get assignment (KNum v) = None ->
  (size (unassignedVars clauses (obj_set assignment (KNum v) b))
   < size (unassignedVars clauses assignment))%nat.
Proof.
  intros Hv Hget. apply subset_size. split.
  - intros x. unfold unassignedVars. rewrite !elem_of_filter, obj_get_set.
    case_decide; [by intros [? _]|done].
  - intros Hsub. specialize (Hsub v). revert Hsub.
    unfold unassignedVars. rewrite !elem_of_filter, obj_get_set.
    rewrite decide_True by done. intros Hsub.
    by destruct Hsub as [? _].
Qed.

(** The clause picked on line 48 has a literal for line 50 to find, and its
    variable is unassigned. *)
Lemma unitClause_unitLit clauses assignment clause :
  unitClause clauses assignment = Some clause ->
  ∃ lit, unitLit clause assignment = Some lit ∧ clause ∈ clauses ∧
         lit ∈ clause ∧ obj_get assignment (KNum (Z.abs lit)) = None.
Proof.
  intros Hfind. apply find_some in Hfind as [Hin Hone].
  apply Nat.eqb_eq in Hone.
  destruct (unitLit clause assignment) as [lit|] eqn:Hlit.
  - apply find_some in Hlit as [Hlit Hun]. exists lit.
    rewrite !list_elem_of_In. by apply bool_decide_eq_true in Hun.
  - exfalso.
    destruct (filter _ clause) as [|lit rest] eqn:Hfilter; [done|].
    assert (lit ∈ filter (fun lit => lit_unassigned assignment lit = true) clause)
      as Hmem by (rewrite Hfilter; left).
    apply list_elem_of_filter in Hmem as [Hun Hmem].
    apply list_elem_of_In in Hmem.
    pose proof (find_none _ _ Hlit _ Hmem). congruence.
Qed.

(** When all literals are nonzero, an assignment that neither satisfies the
    formula nor falsifies a clause leaves a variable for line 55. *)
Lemma variable_is_Some clauses assignment :
  nonzero_literals clauses ->
  satisfied clauses assignment = false ->
  conflict clauses assignment = false ->
  ∃ v, variable clauses assignment = Some v ∧ v ∈ variables clauses ∧
       obj_get assignment (KNum v) = None.
Proof.
  intros Hnz Hsat Hconf. unfold variable.
  destruct (filter _ (map Z.abs (concat clauses))) as [|v rest] eqn:Hfilter.
  - exfalso.
    assert (∀ clause lit, clause ∈ clauses -> lit ∈ clause ->
              obj_get assignment (KNum (Z.abs lit)) ≠ None) as Hall.
    { intros clause lit Hclause Hlit Hnone.
      eapply (filter_nil_not_elem_of _ _ (Z.abs lit)); [exact Hfilter|exact Hnone|].
      by eapply elem_of_flat_abs. }
    apply forallb_false in Hsat as (clause & Hclause & Hnone).
    assert (forallb (lit_false assignment) clause = true) as Hfalse.
    { apply forallb_forall. intros lit Hlit. apply list_elem_of_In in Hlit.
      pose proof (existsb_false _ _ _ Hnone Hlit) as Hnt.
      specialize (Hall clause lit Hclause Hlit).
      unfold nonzero_literals in Hnz. rewrite Forall_forall in Hnz.
      specialize (Hnz clause Hclause).
      rewrite Forall_forall in Hnz. specialize (Hnz lit Hlit).
      unfold lit_true in Hnt. apply bool_decide_eq_false in Hnt.
      unfold lit_false. apply bool_decide_eq_true.
      destruct (obj_get assignment (KNum (Z.abs lit))) as [b|]; [|done].
      f_equal. destruct b, (Z.ltb_spec 0 lit), (Z.ltb_spec lit 0);
        done || lia. }
    by rewrite (existsb_false _ _ _ Hconf Hclause) in Hfalse.
  - exists v. split; [done|].
    assert (v ∈ filter (fun v => obj_get assignment (KNum v) = None)
                       (map Z.abs (concat clauses))) as Hmem
      by (rewrite Hfilter; left).
    apply list_elem_of_filter in Hmem as [Hnone Hmem].
    split; [by apply elem_of_list_to_set|done].
Qed.

(** Every call [dpll] makes from a call that did not return at once binds one
    more variable, a variable of the formula. *)
Lemma recursive_calls_grow clauses assignment :
  nonzero_literals clauses ->
  satisfied clauses assignment = false ->
  conflict clauses assignment = false ->
  Forall (fun a' =>
            bound a' = S (bound assignment) ∧
            (size (unassignedVars clauses a')
             < size (unassignedVars clauses assignment))%nat)
         (recursive_calls clauses assignment).
Proof.
  intros Hnz Hsat Hconf. unfold recursive_calls.
  destruct (unitClause clauses assignment) as [clause|] eqn:Hunit.
  - destruct (unitClause_unitLit _ _ _ Hunit) as (lit & -> & Hcl & Hlit & Hnone).
    simpl. repeat constructor.
    + by apply bound_obj_set_fresh.
    + apply unassignedVars_obj_set; [by eapply elem_of_variables|done].
  - destruct (variable_is_Some _ _ Hnz Hsat Hconf) as (v & -> & Hv & Hnone).
    simpl. repeat constructor;
      by (apply bound_obj_set_fresh || apply unassignedVars_obj_set).
Qed.

(** Fuel above the number of unassigned variables is enough. *)
Lemma dpll_is_Some clauses fuel assignment memo :
  nonzero_literals clauses ->
  (size (unassignedVars clauses assignment) < fuel)%nat ->
  is_Some (dpll fuel clauses assignment memo).
Proof.
  intros Hnz. revert assignment memo.
  induction fuel as [|fuel IH]; intros assignment memo Hsize; [lia|]; simpl.
  destruct (memo !! JSON_stringify assignment); [done|].
  destruct (satisfied clauses assignment) eqn:Hsat; [done|].
  destruct (conflict clauses assignment) eqn:Hconf; [done|].
  pose proof (recursive_calls_grow _ _ Hnz Hsat Hconf) as Hgrow.
  unfold recursive_calls in Hgrow.
  destruct (unitClause clauses assignment) as [clause|].
  - destruct (unit_binding (unitLit clause assignment)) as [k b].
    apply Forall_singleton in Hgrow as [_ Hlt]. apply IH. lia.
  - apply Forall_cons in Hgrow as [[_ Htrue] Hgrow].
    apply Forall_singleton in Hgrow as [_ Hfalse].
    set (k := variable_key (variable clauses assignment)) in *.
    destruct (IH (obj_set assignment k true) memo) as [[[r1|] memo1] ->];
      [lia|done|].
    by destruct (IH (obj_set assignment k false) memo1) as [[r2 memo2] ->];
      [lia|].
Qed.
End termination.

(** Along the recursion the bound variables and the unassigned variables of
    the formula add up to at most the variables of the formula. *)
Lemma reached_bound clauses assignment :
  nonzero_literals clauses ->
  reached clauses assignment ->
  (bound assignment + size (unassignedVars clauses assignment)
   <= size (variables clauses))%nat.
Proof.
  intros Hnz.
  induction 1 as [|assignment assignment' _ IH Hsat Hconf Hcall].
  - pose proof (subseteq_size _ _ (unassignedVars_subseteq clauses [])).
    simpl. lia.
  - pose proof (recursive_calls_grow _ _ Hnz Hsat Hconf) as Hgrow.
    rewrite Forall_forall in Hgrow. apply Hgrow in Hcall as [-> Hlt]. lia.
Qed.

(** C8 (termination).  On a formula whose literals are all nonzero, a call
    that does not return at once (cache hit, satisfaction, conflict) calls
    [dpll] only on assignments with one more bound variable and strictly fewer
    unassigned variables of the formula; the assignments reached from the
    empty one bind at most as many variables as the formula has distinct
    variables; and [dpll] returns within a recursion depth of one more than
    that number, whatever the assignment and the memo it starts from. *)
Theorem dpll_terminates clauses assignment memo :
  nonzero_literals clauses ->
  (satisfied clauses assignment = false ->
   conflict clauses assignment = false ->
   Forall (fun a' =>
             bound a' = S (bound assignment) ∧
             (size (unassignedVars clauses a')
              < size (unassignedVars clauses assignment))%nat)
          (recursive_calls clauses assignment)) ∧
  (reached clauses assignment ->
   (bound assignment <= size (variables clauses))%nat) ∧
  is_Some (dpll (S (size (variables clauses))) clauses assignment memo).
Proof.
  intros Hnz.
  split; [by apply recursive_calls_grow|]. split.
  - intros Hreached%(reached_bound _ _ Hnz). lia.
  - pose proof (subseteq_size _ _ (unassignedVars_subseteq clauses assignment)).
    apply dpll_is_Some; [done|lia].
Qed.

(** The program's clauses at the first call: one recursive call, on
    [{4: false}]. *)
Lemma dpll_terminates_witness :
  Forall (fun a' =>
            bound a' = 1%nat ∧
            (size (unassignedVars clauses a')
             < size (unassignedVars clauses []))%nat)
         [[(KNum 4, false)]] ∧
  (bound [] <= size (variables clauses))%nat ∧
  is_Some (dpll (S (size (variables clauses))) clauses [] ∅).
Proof.
  destruct (dpll_terminates clauses [] ∅) as (Hcalls & Hbound & Hreturns).
  - unfold nonzero_literals, clauses. repeat constructor; lia.
  - split; [|split].
    + apply Hcalls; reflexivity.
    + apply Hbound. apply reached_root.
    + exact Hreturns.
Defined.

(** ** The cache-lookup step *)

(** C10 (a cached UNSAT is replayed).  When the memo maps the key of the
    current assignment to [null], [dpll] returns [null] from the lookup of
    line 31 and leaves the memo as it is, whatever the formula: a stored
    [null] is an entry, not the [undefined] of a miss. *)
Theorem dpll_cached_null fuel clauses assignment memo :
  memo !! JSON_stringify assignment = Some null ->
  dpll (S fuel) clauses assignment memo = Some (null, memo).
Proof. intros Hhit. simpl. by rewrite Hhit. Qed.

(** The empty formula is satisfied by the empty assignment, and still the
    stored [null] comes back. *)
Lemma dpll_cached_null_witness :
  dpll 1 [] [] {[JSON_stringify [] := null]} =
  Some (null, {[JSON_stringify [] := null]}).
Proof.
  apply (dpll_cached_null 0 [] [] {[JSON_stringify [] := null]}).
  vm_compute. reflexivity.
Defined.

(** ** The empty clause and the empty formula *)

Lemma satisfied_empty_clause clauses assignment :
  [] ∈ clauses -> satisfied clauses assignment = false.
Proof.
  intros Hin. destruct (satisfied clauses assignment) eqn:Hsat; [|done].
  unfold satisfied in Hsat. rewrite forallb_forall in Hsat.
  apply list_elem_of_In in Hin. by apply Hsat in Hin.
Qed.

Lemma conflict_empty_clause clauses assignment :
  [] ∈ clauses -> conflict clauses assignment = true.
Proof.
  intros Hin. unfold conflict. apply existsb_exists.
  exists []. by rewrite <-list_elem_of_In.
Qed.

(** C6.  When the memo has no entry for the empty assignment (as when it is
    empty), a formula that contains an empty clause makes [dpll] on the empty
    assignment return [null] in its first call, without any recursion and
    whatever the other clauses are, and the formula without clauses makes it
    return the empty assignment. *)
Theorem dpll_empty_clause_and_empty_formula fuel memo :
  memo !! JSON_stringify [] = None ->
  (∀ clauses, [] ∈ clauses ->
     dpll (S fuel) clauses [] memo =
     Some (null, <[JSON_stringify [] := null]> memo)) ∧
  dpll (S fuel) [] [] memo =
    Some (Assignment [], <[JSON_stringify [] := Assignment []]> memo).
Proof.
  intros Hmiss. split.
  - intros clauses Hin. simpl in *. rewrite Hmiss.
    by rewrite satisfied_empty_clause, conflict_empty_clause.
  - simpl in *. by rewrite Hmiss.
Qed.

Lemma dpll_empty_clause_and_empty_formula_witness :
  dpll 1 [[1; -2]; []; [2]] [] ∅ =
    Some (null, <[JSON_stringify [] := null]> ∅) ∧
  dpll 1 [] [] ∅ =
    Some (Assignment [], <[JSON_stringify [] := Assignment []]> ∅).
Proof.
  destruct (dpll_empty_clause_and_empty_formula 0 ∅) as [Hclause Hformula].
  - vm_compute. reflexivity.
  - split; [|exact Hformula].
    apply (Hclause [[1; -2]; []; [2]]). apply list_elem_of_In. simpl. tauto.
Defined.

(** ** The unit-propagation step on the program's own clauses *)

(** C5 (scenario 3), evaluated.  The clause set of the program is satisfied by
    binding the four variables to [false], and [dpll] returns [null] on it:
    the run of line 67 reports the formula as unsatisfiable. *)
Theorem result_is_null fuel :
  satisfied clauses all_false = true ∧
  fst <$> result (5 + fuel) = Some null.
Proof.
  split; [done|].
  apply (dpll_outcome_mono 5); [by vm_compute|lia].
Qed.

(** C3, evaluated.  On the program's clauses, at the assignment
    [{1: false, 3: false, 4: false}], line 48 picks the clause [[-1, 2]]:
    its literal [-1] is true there, so it is no unit clause; line 51 binds
    variable 2 to [true] all the same and [dpll] returns [null] from that
    call, while binding variable 2 to [false] satisfies every clause. *)
Theorem unit_propagation_on_satisfied_clause fuel :
  let assignment := [(KNum 1, false); (KNum 3, false); (KNum 4, false)] in
  unitClause clauses assignment = Some [-1; 2] ∧
  lit_true assignment (-1) = true ∧
  recursive_calls clauses assignment =
    [[(KNum 1, false); (KNum 2, true); (KNum 3, false); (KNum 4, false)]] ∧
  fst <$> dpll (2 + fuel) clauses assignment ∅ = Some null ∧
  satisfied clauses (obj_set assignment (KNum 2) false) = true.
Proof.
  intros assignment. do 3 (split; [by vm_compute|]). split; [|by vm_compute].
  apply (dpll_outcome_mono 2); [by vm_compute|lia].
Qed.

(** ** Completeness *)

(** C1, evaluated.  The formula [[1,2],[-2,3],[-2,-3]] holds under
    [{1: true, 2: false, 3: false}], a total assignment that extends the
    empty one, and [dpll] returns [null] on it from the empty assignment and
    the empty memo. *)
Theorem dpll_null_on_satisfiable fuel :
  let formula := [[1; 2]; [-2; 3]; [-2; -3]] in
  satisfied formula [(KNum 1, true); (KNum 2, false); (KNum 3, false)] = true ∧
  fst <$> dpll (4 + fuel) formula [] ∅ = Some null.
Proof.
  split; [done|].
  apply (dpll_outcome_mono 4); [by vm_compute|lia].
Qed.

(** ** No validation of the literals *)

(** C7, refuted at [[0]].  The literal 0 has the variable index 0; [dpll]
    looks up the memo, propagates the clause, returns the assignment
    [{0: false}] and has stored it in the memo. *)
Lemma dpll_accepts_literal_zero :
  dpll 2 [[0]] [] ∅ =
  Some (Assignment [(KNum 0, false)],
        {[JSON_stringify [(KNum 0, false)] := Assignment [(KNum 0, false)]]}).
Proof. by vm_compute. Qed.

(** C7, as the code has it.  There is no validation and no error: the
    literal 0 is read as a literal of variable 0 that is true, and also
    falsified, exactly when variable 0 is bound to [false]; on [[0]] every run
    with fuel for two calls returns [{0: false}] and leaves it in the memo
    under the key of that assignment. *)
Theorem dpll_literal_zero fuel :
  (∀ assignment,
     lit_true assignment 0 = bool_decide (obj_get assignment (KNum 0) = Some false) ∧
     lit_false assignment 0 = bool_decide (obj_get assignment (KNum 0) = Some false)) ∧
  dpll (2 + fuel) [[0]] [] ∅ =
  Some (Assignment [(KNum 0, false)],
        {[JSON_stringify [(KNum 0, false)] := Assignment [(KNum 0, false)]]}).
Proof.
  split; [done|].
  apply (dpll_fuel_mono 2); [by vm_compute|lia].
Qed.

(** With the literal 0 the recursion need not end: on [[0, 0]] the call at
    [{0: true}] finds the formula neither satisfied nor falsified and no
    variable unassigned, binds the name [undefined], and from there calls
    itself on the same assignment with the same memo. *)
Lemma dpll_literal_zero_loop fuel :
  dpll fuel [[0; 0]] [(KNum 0, true); (KUndefined, true)] ∅ = None.
Proof.
  induction fuel as [|fuel IH]; [done|]. simpl. rewrite lookup_empty.
  change (obj_set [(KNum 0, true); (KUndefined, true)] KUndefined true)
    with [(KNum 0, true); (KUndefined, true)].
  by rewrite IH.
Qed.

Lemma dpll_literal_zero_diverges fuel : dpll fuel [[0; 0]] [] ∅ = None.
Proof.
  destruct fuel as [|[|fuel]]; [done..|].
  simpl. rewrite !lookup_empty.
  change (obj_set (obj_set [] (KNum 0) true) KUndefined true)
    with [(KNum 0, true); (KUndefined, true)].
  by rewrite dpll_literal_zero_loop.
Qed.

(** ** The key determines the assignment object *)

Section stringify.
Implicit Types (s r : string) (o : JSObject) (k : PropKey).

Lemma string_app_nil s : "" +:+ s = s.
Proof. reflexivity. Qed.

Lemma string_app_cons c s r : String c s +:+ r = String c (s +:+ r).
Proof. reflexivity. Qed.

Lemma String_tail c s r : String c s = String c r -> s = r.
Proof. by intros [= ->]. Qed.

Lemma string_app_assoc s1 s2 s3 : (s1 +:+ s2) +:+ s3 = s1 +:+ s2 +:+ s3.
Proof.
  induction s1 as [|c s1 IH]; [done|].
  by rewrite !string_app_cons, IH.
Qed.

(** Two strings that agree up to and after their first [c] agree. *)
Lemma string_split_at c s1 s2 r1 r2 :
  without c s1 -> without c s2 ->
  s1 +:+ String c r1 = s2 +:+ String c r2 -> s1 = s2 ∧ r1 = r2.
Proof.
  revert s2. induction s1 as [|c1 s1 IH]; intros [|c2 s2];
    rewrite ?string_app_nil, ?string_app_cons; simpl.
  - by intros _ _ [= ->].
  - by intros _ [Hne _] [= <- _].
  - by intros [Hne _] _ [= -> _].
  - intros [_ H1] [_ H2] [= -> Heq].
    destruct (IH s2 H1 H2 Heq) as [-> ->]. done.
Qed.

Lemma numeral_without c s :
  is_numeral c = false -> numeral s -> without c s.
Proof.
  intros Hc. induction s as [|c' s IH]; simpl; [done|].
  intros [Hc' Hs]. split; [congruence|auto].
Qed.

Lemma pretty_N_char_numeral x : is_numeral (pretty_N_char x) = true.
Proof. unfold pretty_N_char. by repeat case_match. Qed.

Lemma pretty_N_go_numeral x s : numeral s -> numeral (pretty_N_go x s).
Proof.
  revert s. induction (N.lt_wf_0 x) as [x _ IH]; intros s Hs.
  destruct (decide (x = 0)%N) as [->|Hx]; [by rewrite pretty_N_go_0|].
  rewrite pretty_N_go_step by lia.
  apply IH; [apply N.div_lt; lia|].
  split; [apply pretty_N_char_numeral|done].
Qed.

Lemma pretty_N_numeral (x : N) : numeral (pretty x).
Proof.
  unfold pretty, pretty_N. case_decide; [done|].
  by apply pretty_N_go_numeral.
Qed.

Lemma pretty_Z_numeral (z : Z) : numeral (pretty z).
Proof.
  destruct z as [|p|p]; [done|apply pretty_N_numeral|].
  split; [done|apply pretty_N_numeral].
Qed.

(** A printed number holds no quote, and no two names print alike. *)
Lemma ToString_without_quote k : without quote (ToString k).
Proof.
  destruct k; simpl; [|by repeat split..].
  by apply numeral_without, pretty_Z_numeral.
Qed.

Lemma ToString_inj k1 k2 : ToString k1 = ToString k2 -> k1 = k2.
Proof.
  destruct k1 as [n1| |], k2 as [n2| |]; simpl; intros Heq; try done.
  - f_equal. by apply (inj pretty).
  - pose proof (pretty_Z_numeral n1) as Hnum. rewrite Heq in Hnum.
    by destruct Hnum.
  - pose proof (pretty_Z_numeral n1) as Hnum. rewrite Heq in Hnum.
    by destruct Hnum.
  - pose proof (pretty_Z_numeral n2) as Hnum. rewrite <-Heq in Hnum.
    by destruct Hnum.
  - pose proof (pretty_Z_numeral n2) as Hnum. rewrite <-Heq in Hnum.
    by destruct Hnum.
Qed.

(** A property can be read back off the front of a string. *)
Lemma json_property_split e1 e2 r1 r2 :
  json_property e1 +:+ r1 = json_property e2 +:+ r2 -> e1 = e2 ∧ r1 = r2.
Proof.
  destruct e1 as [k1 v1], e2 as [k2 v2]. unfold json_property. simpl.
  rewrite !string_app_cons, !string_app_assoc, !string_app_cons.
  intros [= Heq].
  apply string_split_at in Heq as [Hk Heq];
    [|apply ToString_without_quote..].
  apply ToString_inj in Hk as ->.
  destruct v1, v2; by simplify_eq.
Qed.

Lemma json_rest_cons e o :
  json_rest (e :: o) = String "," (json_property e +:+ json_rest o).
Proof. reflexivity. Qed.

Lemma json_rest_inj o1 o2 : json_rest o1 = json_rest o2 -> o1 = o2.
Proof.
  revert o2. induction o1 as [|e1 o1 IH]; intros [|e2 o2];
    rewrite ?json_rest_cons; try done.
  intros Heq%String_tail%json_property_split. destruct Heq as [-> Heq].
  f_equal. by apply IH.
Qed.

Lemma JSON_stringify_cons e o :
  JSON_stringify (e :: o) = String "{" (json_property e +:+ json_rest o).
Proof. reflexivity. Qed.

(** [JSON.stringify] is one-to-one on objects: the key tells the properties
    and their order. *)
Lemma JSON_stringify_inj o1 o2 :
  JSON_stringify o1 = JSON_stringify o2 -> o1 = o2.
Proof.
  destruct o1 as [|e1 o1], o2 as [|e2 o2]; rewrite ?JSON_stringify_cons;
    try done.
  intros Heq%String_tail%json_property_split. destruct Heq as [-> Heq].
  f_equal. by apply json_rest_inj.
Qed.
End stringify.

(** ** The memo and the verdict *)

Section cache.
Implicit Types (clauses : list Clause) (assignment : JSObject) (memo : Memo).

Lemma search_fuel_mono fuel fuel' clauses assignment outcome :
  search fuel clauses assignment = Some outcome ->
  (fuel <= fuel')%nat ->
  search fuel' clauses assignment = Some outcome.
Proof.
  revert fuel' assignment outcome.
  induction fuel as [|fuel IH]; intros fuel' assignment outcome; [done|].
  intros Hrun Hle. destruct fuel' as [|fuel']; [lia|].
  assert (fuel <= fuel')%nat as Hle' by lia.
  simpl in *.
  destruct (satisfied clauses assignment); [done|].
  destruct (conflict clauses assignment); [done|].
  destruct (unitClause clauses assignment) as [clause|].
  - destruct (unit_binding (unitLit clause assignment)) as [k b]. eauto.
  - destruct (search fuel clauses _) as [[r1|]|] eqn:Hfirst; [| |done];
      rewrite (IH _ _ _ Hfirst Hle'); eauto.
Qed.

Lemma search_deterministic fuel fuel' clauses assignment outcome outcome' :
  search fuel clauses assignment = Some outcome ->
  search fuel' clauses assignment = Some outcome' ->
  outcome = outcome'.
Proof.
  intros Hrun Hrun'.
  apply (search_fuel_mono _ (fuel `max` fuel')) in Hrun; [|lia].
  apply (search_fuel_mono _ (fuel `max` fuel')) in Hrun'; [|lia].
  congruence.
Qed.

Lemma memo_faithful_empty clauses : memo_faithful clauses ∅.
Proof. intros assignment outcome Hget. by rewrite lookup_empty in Hget. Qed.

Lemma memo_faithful_insert clauses memo assignment outcome fuel :
  memo_faithful clauses memo ->
  search fuel clauses assignment = Some outcome ->
  memo_faithful clauses (<[JSON_stringify assignment := outcome]> memo).
Proof.
  intros Hmemo Hrun assignment' outcome'. rewrite lookup_insert.
  case_decide as Hkey; [|apply Hmemo].
  apply JSON_stringify_inj in Hkey as <-. intros [= <-]. eauto.
Qed.

(** On a faithful memo, [dpll] returns what the search returns and leaves a
    faithful memo. *)
Lemma dpll_search fuel clauses assignment memo outcome memo' :
  memo_faithful clauses memo ->
  dpll fuel clauses assignment memo = Some (outcome, memo') ->
  (∃ fuel', search fuel' clauses assignment = Some outcome) ∧
  memo_faithful clauses memo'.
Proof.
  revert assignment memo outcome memo'.
  induction fuel as [|fuel IH]; intros assignment memo outcome memo' Hmemo;
    [done|]; simpl.
  destruct (memo !! JSON_stringify assignment) as [cached|] eqn:Hhit.
  { intros [= -> ->]. split; [by apply Hmemo|done]. }
  destruct (satisfied clauses assignment) eqn:Hsat.
  { intros [= <- <-].
    assert (search 1 clauses assignment = Some (Assignment assignment)) as Hrun
      by (simpl; by rewrite Hsat).
    split; [by exists 1%nat|by eapply memo_faithful_insert]. }
  destruct (conflict clauses assignment) eqn:Hconf.
  { intros [= <- <-].
    assert (search 1 clauses assignment = Some null) as Hrun
      by (simpl; by rewrite Hsat, Hconf).
    split; [by exists 1%nat|by eapply memo_faithful_insert]. }
  destruct (unitClause clauses assignment) as [clause|] eqn:Hunit.
  { destruct (unit_binding (unitLit clause assignment)) as [k b] eqn:Hbind.
    intros Hrun. destruct (IH _ _ _ _ Hmemo Hrun) as [[n Hn] Hmemo'].
    split; [|done]. exists (S n). simpl.
    by rewrite Hsat, Hconf, Hunit, Hbind. }
  set (k := variable_key (variable clauses assignment)).
  destruct (dpll fuel clauses (obj_set assignment k true) memo)
    as [[[r1|] memo1]|] eqn:Hfirst; [| |done].
  - destruct (IH _ _ _ _ Hmemo Hfirst) as [[n1 Hn1] Hmemo1].
    intros [= <- <-].
    assert (search (S n1) clauses assignment = Some (Assignment r1)) as Hrun.
    { simpl. rewrite Hsat, Hconf, Hunit. fold k. by rewrite Hn1. }
    split; [by eexists|by eapply memo_faithful_insert].
  - destruct (IH _ _ _ _ Hmemo Hfirst) as [[n1 Hn1] Hmemo1].
    destruct (dpll fuel clauses (obj_set assignment k false) memo1)
      as [[r2 memo2]|] eqn:Hsecond; [|done].
    destruct (IH _ _ _ _ Hmemo1 Hsecond) as [[n2 Hn2] Hmemo2].
    intros [= <- <-].
    assert (search (S (n1 `max` n2)) clauses assignment = Some r2) as Hrun.
    { simpl. rewrite Hsat, Hconf, Hunit. fold k.
      rewrite (search_fuel_mono _ (n1 `max` n2) _ _ _ Hn1) by lia.
      apply (search_fuel_mono _ _ _ _ _ Hn2). lia. }
    split; [by eexists|by eapply memo_faithful_insert].
Qed.

(** Calls on one formula keep the memo faithful to it. *)
Lemma populated_faithful clauses memo :
  populated (eq clauses) memo -> memo_faithful clauses memo.
Proof.
  induction 1 as [|memo fuel clauses' assignment outcome memo' _ IH <- Hrun].
  - apply memo_faithful_empty.
  - by destruct (dpll_search _ _ _ _ _ _ IH Hrun).
Qed.
End cache.

(** C4, refuted.  The key of the memo is the assignment alone.  The call on
    [[1],[-1]] leaves [null] under the key of [{1: true}]; with that memo the
    call on [[1]] returns [null], with the empty memo it returns
    [{1: true}]. *)
Lemma dpll_outcome_depends_on_memo :
  let memo := {[JSON_stringify [(KNum 1, true)] := null]} in
  dpll 2 [[1]; [-1]] [] ∅ = Some (null, memo) ∧
  populated (fun _ => True) memo ∧
  fst <$> dpll 2 [[1]] [] ∅ = Some (Assignment [(KNum 1, true)]) ∧
  fst <$> dpll 2 [[1]] [] memo = Some null.
Proof.
  intros memo.
  assert (dpll 2 [[1]; [-1]] [] ∅ = Some (null, memo)) as Hrun
    by by vm_compute.
  split; [done|]. split; [|split; by vm_compute].
  by eapply populated_call; [apply populated_empty| |exact Hrun].
Qed.

(** C4, as the code has it.  For a fixed formula and assignment, the outcome
    of [dpll] on a memo that earlier calls on the same formula have filled,
    starting from the empty memo, is the outcome of [dpll] on the empty
    memo. *)
Theorem dpll_outcome_same_formula
  clauses assignment memo fuel1 fuel2 outcome1 outcome2 memo1 memo2 :
  populated (eq clauses) memo ->
  dpll fuel1 clauses assignment ∅ = Some (outcome1, memo1) ->
  dpll fuel2 clauses assignment memo = Some (outcome2, memo2) ->
  outcome1 = outcome2.
Proof.
  intros Hmemo%populated_faithful Hrun1 Hrun2.
  destruct (dpll_search _ _ _ _ _ _ (memo_faithful_empty clauses) Hrun1)
    as [[n1 Hn1] _].
  destruct (dpll_search _ _ _ _ _ _ Hmemo Hrun2) as [[n2 Hn2] _].
  by eapply search_deterministic.
Qed.

(** A second call on [[1]]: the memo of the first one answers at the key of
    [{1: true}]. *)
Lemma dpll_outcome_same_formula_witness :
  let outcome := Assignment [(KNum 1, true)] in
  let memo := {[JSON_stringify [(KNum 1, true)] := outcome]} in
  populated (eq [[1]]) memo ∧
  dpll 2 [[1]] [] ∅ = Some (outcome, memo) ∧
  dpll 2 [[1]] [] memo = Some (outcome, memo) ∧
  outcome = outcome.
Proof.
  intros outcome memo.
  assert (dpll 2 [[1]] [] ∅ = Some (outcome, memo)) as Hrun1 by by vm_compute.
  assert (dpll 2 [[1]] [] memo = Some (outcome, memo)) as Hrun2
    by by vm_compute.
  assert (populated (eq [[1]]) memo) as Hmemo
    by (by eapply populated_call; [apply populated_empty| |exact Hrun1]).
  split; [exact Hmemo|]. split; [exact Hrun1|]. split; [exact Hrun2|].
  exact (dpll_outcome_same_formula [[1]] [] memo 2 2 outcome outcome memo memo
           Hmemo Hrun1 Hrun2).
Defined.

(** ** The key and the order of the bindings *)

Section canonical.
Implicit Types (o : JSObject) (k : PropKey) (v : bool).

Lemma Forall_obj_update (P : PropKey -> Prop) k v o :
  Forall (fun e => P e.1) o -> Forall (fun e => P e.1) (obj_update k v o).
Proof.
  induction 1 as [|[k1 v1] o Hk1 Ho IH]; simpl; [done|].
  destruct (decide (k1 = k)) as [->|Hne]; by constructor.
Qed.

Lemma Forall_obj_add_index (P : PropKey * bool -> Prop) k v o :
  P (k, v) -> Forall P o -> Forall P (obj_add_index k v o).
Proof.
  intros Hk. induction 1 as [|[k1 v1] o Hk1 Ho IH]; simpl.
  - by repeat constructor.
  - destruct (comes_before k k1); by repeat constructor.
Qed.

Lemma ascending_obj_update k v o : ascending o -> ascending (obj_update k v o).
Proof.
  induction o as [|[k1 v1] o IH]; simpl; [done|].
  intros (Hidx & Hlt & Hasc).
  destruct (decide (k1 = k)) as [->|Hne]; simpl; [done|].
  split; [done|]. split; [|auto].
  by apply (Forall_obj_update (key_lt k1)).
Qed.

Lemma key_lt_trans k1 k2 k3 : key_lt k1 k2 -> key_lt k2 k3 -> key_lt k1 k3.
Proof. destruct k1, k2, k3; simpl; lia || done. Qed.

Lemma ascending_obj_add_index k v o :
  isArrayIndex k = true -> obj_get o k = None -> ascending o ->
  ascending (obj_add_index k v o).
Proof.
  intros Hk. induction o as [|[k1 v1] o IH]; simpl.
  - by repeat split.
  - intros Hget (Hidx & Hlt & Hasc).
    destruct (decide (k1 = k)) as [->|Hne]; [done|].
    destruct (comes_before k k1) eqn:Hbefore; simpl.
    + assert (key_lt k k1) as Hkk1.
      { destruct k as [n| |], k1 as [m| |]; try done.
        unfold comes_before in Hbefore. rewrite Hidx in Hbefore. simpl. lia. }
      repeat split; try done. constructor; [done|].
      eapply Forall_impl; [exact Hlt|]. intros e. by apply key_lt_trans.
    + assert (key_lt k1 k) as Hk1k.
      { destruct k as [n| |], k1 as [m| |]; try done.
        unfold comes_before in Hbefore. rewrite Hidx in Hbefore. simpl.
        assert (n ≠ m) by congruence. lia. }
      split; [done|]. split; [by apply Forall_obj_add_index|auto].
Qed.

Lemma ascending_obj_set k v o :
  isArrayIndex k = true -> ascending o -> ascending (obj_set o k v).
Proof.
  intros Hk Hasc. unfold obj_set.
  destruct (obj_get o k) eqn:Hget; [by apply ascending_obj_update|].
  rewrite Hk. by apply ascending_obj_add_index.
Qed.

(** Bindings of array indices, in whatever order, build an ascending object. *)
Lemma ascending_build bindings :
  Forall (fun e => isArrayIndex (KNum e.1) = true) bindings ->
  ascending (build bindings).
Proof.
  unfold build. generalize ([] : JSObject) (I : ascending []).
  induction bindings as [|[n b] bindings IH]; intros o Hasc Hall; [done|].
  apply Forall_cons in Hall as [Hn Hall]. simpl.
  apply IH; [|done]. by apply ascending_obj_set.
Qed.

Lemma obj_get_not_below k o :
  Forall (fun e => key_lt k e.1) o -> obj_get o k = None.
Proof.
  induction 1 as [|[k1 v1] o Hk1 Ho IH]; simpl; [done|].
  rewrite decide_False; [done|]. intros ->.
  destruct k; simpl in Hk1; lia || done.
Qed.

Lemma obj_get_Some_elem o k v : obj_get o k = Some v -> (k, v) ∈ o.
Proof.
  induction o as [|[k1 v1] o IH]; simpl; [done|].
  destruct (decide (k1 = k)) as [->|Hne].
  - intros [= ->]. left.
  - intros Hget. right. auto.
Qed.

(** Two ascending objects with the same bindings are the same object. *)
Lemma ascending_ext o1 o2 :
  ascending o1 -> ascending o2 ->
  (∀ k, obj_get o1 k = obj_get o2 k) -> o1 = o2.
Proof.
  revert o2. induction o1 as [|[k1 v1] o1 IH]; intros [|[k2 v2] o2]; simpl.
  - done.
  - intros _ _ Hext. specialize (Hext k2). by rewrite decide_True in Hext.
  - intros _ _ Hext. specialize (Hext k1). by rewrite decide_True in Hext.
  - intros (Hidx1 & Hlt1 & Hasc1) (Hidx2 & Hlt2 & Hasc2) Hext.
    assert (k1 = k2) as <-.
    { destruct (decide (k1 = k2)) as [|Hne]; [done|]. exfalso.
      pose proof (Hext k1) as H1. pose proof (Hext k2) as H2.
      rewrite decide_True, decide_False in H1 by done.
      rewrite decide_False, decide_True in H2 by done.
      symmetry in H1. apply obj_get_Some_elem in H1, H2.
      rewrite Forall_forall in Hlt1, Hlt2.
      apply Hlt1 in H2. apply Hlt2 in H1. simpl in *.
      destruct k1, k2; simpl in *; lia || done. }
    pose proof (Hext k1) as Hv. rewrite !decide_True in Hv by done.
    injection Hv as <-. f_equal. apply IH; [done..|].
    intros k. destruct (decide (k1 = k)) as [<-|Hne].
    + by rewrite !obj_get_not_below.
    + specialize (Hext k). by rewrite !decide_False in Hext.
Qed.
End canonical.

(** C9, refuted above the array indices.  The names 4294967296 and 4294967297
    are no array indices and keep the order in which they were added: the
    same two bindings, added in the two orders, give different keys. *)
Lemma JSON_stringify_depends_on_order :
  let first := build [(4294967296, true); (4294967297, false)] in
  let second := build [(4294967297, false); (4294967296, true)] in
  (∀ k, obj_get first k = obj_get second k) ∧
  JSON_stringify first ≠ JSON_stringify second.
Proof.
  intros first second. split.
  - intros k. vm_compute build in first, second. subst first second. simpl.
    repeat case_decide; congruence.
  - by vm_compute.
Qed.

(** C9, as the code has it.  When all the variables are array indices (below
    2^32 - 1), two assignments built from the empty object by adding bindings
    in any order have the same key as soon as they bind the same variables to
    the same values. *)
Theorem JSON_stringify_canonical bindings1 bindings2 :
  Forall (fun e => isArrayIndex (KNum e.1) = true) bindings1 ->
  Forall (fun e => isArrayIndex (KNum e.1) = true) bindings2 ->
  (∀ k, obj_get (build bindings1) k = obj_get (build bindings2) k) ->
  JSON_stringify (build bindings1) = JSON_stringify (build bindings2).
Proof.
  intros Hidx1 Hidx2 Hext. f_equal.
  apply ascending_ext; auto using ascending_build.
Qed.

Lemma JSON_stringify_canonical_witness :
  JSON_stringify (build [(3, true); (1, false); (2, true)]) =
  JSON_stringify (build [(2, false); (1, false); (3, true); (2, true)]).
Proof.
  apply JSON_stringify_canonical.
  - repeat constructor.
  - repeat constructor.
  - intros k. reflexivity.
Defined.

(** * Further properties of the code *)

(** ** The key, the spread and the report *)

(** X1.  The key of line 28 is unique: two assignment objects have the same
    JSON string exactly when they have the same properties in the same
    order, so no two different objects share a memo entry. *)
Theorem cache_key_unique (assignment1 assignment2 : JSObject) :
  JSON_stringify assignment1 = JSON_stringify assignment2 <->
  assignment1 = assignment2.
Proof. split; [apply JSON_stringify_inj|by intros ->]. Qed.

(** X2.  The object of lines 51, 58 and 59, [{ ...assignment, [k]: v }],
    binds [k] to [v] and reads everywhere else as [assignment] does; it has
    one more property when [k] was unassigned and as many when it was not. *)
Theorem spread_binding (assignment : JSObject) k v :
  (∀ k', obj_get (obj_set assignment k v) k' =
         if decide (k = k') then Some v else obj_get assignment k') ∧
  bound (obj_set assignment k v) =
    match obj_get assignment k with
    | None => S (bound assignment)
    | Some _ => bound assignment
    end.
Proof.
  split; [intros k'; apply obj_get_set|].
  destruct (obj_get assignment k) as [x|] eqn:Hget;
    [|by apply bound_obj_set_fresh].
  unfold bound, obj_set. rewrite Hget. clear x Hget.
  induction assignment as [|[k1 v1] o IH]; simpl; [done|].
  destruct (decide (k1 = k)); simpl; by rewrite ?IH.
Qed.

(** X3.  The line printed on line 68 tells the result: different results
    print different lines, and only [null] prints UNSATISFIABLE (the empty
    assignment prints as satisfiable). *)
Theorem report_inj (result1 result2 : Outcome) :
  report result1 = report result2 -> result1 = result2.
Proof.
  destruct result1 as [a1|], result2 as [a2|]; simpl; try done.
  intros Heq. f_equal. apply JSON_stringify_inj.
  by apply (inj (String.app _)) in Heq.
Qed.

Lemma report_inj_witness :
  Assignment [] = Assignment [].
Proof. apply (report_inj (Assignment []) (Assignment [])). reflexivity. Defined.

(** ** The choices of lines 48-55 *)

(** X4.  When line 48 finds a clause, line 50 finds a literal in it (never
    [undefined], so the name [NaN] is never written); its variable is
    unassigned, the only call made is on the assignment that binds it, and
    that binding makes the literal true. *)
Theorem unit_step_binds_its_literal clauses assignment clause :
  unitClause clauses assignment = Some clause ->
  ∃ lit,
    clause ∈ clauses ∧ lit ∈ clause ∧
    unitLit clause assignment = Some lit ∧
    obj_get assignment (KNum (Z.abs lit)) = None ∧
    recursive_calls clauses assignment =
      [obj_set assignment (KNum (Z.abs lit)) (0 <? lit)] ∧
    lit_true (obj_set assignment (KNum (Z.abs lit)) (0 <? lit)) lit = true.
Proof.
  intros Hunit.
  destruct (unitClause_unitLit _ _ _ Hunit) as (lit & Hlit & Hcl & Hin & Hnone).
  exists lit. repeat split; try done.
  - unfold recursive_calls. by rewrite Hunit, Hlit.
  - unfold lit_true. apply bool_decide_eq_true.
    rewrite obj_get_set. by rewrite decide_True.
Qed.

Lemma unit_step_binds_its_literal_witness :
  ∃ lit,
    [-4] ∈ clauses ∧ lit ∈ [-4] ∧
    unitLit [-4] [] = Some lit ∧
    obj_get [] (KNum (Z.abs lit)) = None ∧
    recursive_calls clauses [] = [obj_set [] (KNum (Z.abs lit)) (0 <? lit)] ∧
    lit_true (obj_set [] (KNum (Z.abs lit)) (0 <? lit)) lit = true.
Proof. apply (unit_step_binds_its_literal clauses [] [-4]). reflexivity. Defined.

Lemma variable_Some clauses assignment v :
  variable clauses assignment = Some v ->
  v ∈ variables clauses ∧ obj_get assignment (KNum v) = None.
Proof.
  unfold variable. intros Hhead%head_Some_elem_of.
  apply list_elem_of_filter in Hhead as [Hnone Hin].
  split; [by apply elem_of_list_to_set|done].
Qed.

(** X5.  The selection of line 55 is total: [variable] is [undefined] exactly
    when no variable of the formula is unassigned; otherwise it is a variable
    of the formula that the assignment leaves unassigned. *)
Theorem variable_total clauses assignment :
  (variable clauses assignment = None <->
   unassignedVars clauses assignment = ∅) ∧
  (∀ v, variable clauses assignment = Some v ->
        v ∈ unassignedVars clauses assignment).
Proof.
  split.
  - unfold variable. rewrite head_None. split.
    + intros Hnil. apply set_eq. intros v.
      split; [|by intros ?%not_elem_of_empty].
      unfold unassignedVars, variables.
      rewrite elem_of_filter, elem_of_list_to_set. intros [Hnone Hin].
      by destruct (filter_nil_not_elem_of _ _ _ Hnil Hnone).
    + intros Hempty.
      destruct (filter _ (map Z.abs (concat clauses))) as [|v rest] eqn:Hf;
        [done|].
      assert (v ∈ filter (fun v => obj_get assignment (KNum v) = None)
                         (map Z.abs (concat clauses))) as Hmem
        by (rewrite Hf; left).
      apply list_elem_of_filter in Hmem as [Hnone Hin].
      assert (v ∈ unassignedVars clauses assignment) as Hv.
      { unfold unassignedVars, variables.
        by rewrite elem_of_filter, elem_of_list_to_set. }
      rewrite Hempty in Hv. by apply not_elem_of_empty in Hv.
  - intros v [Hin Hnone]%variable_Some.
    unfold unassignedVars. by rewrite elem_of_filter.
Qed.

Lemma variable_total_witness :
  variable clauses [(KNum 4, false)] = Some 1 ∧
  1 ∈ unassignedVars clauses [(KNum 4, false)].
Proof.
  destruct (variable_total clauses [(KNum 4, false)]) as [_ Hsome].
  split; [reflexivity|]. apply Hsome. reflexivity.
Defined.

(** ** What a call does to the memo *)

Section memo_writes.
Implicit Types (clauses : list Clause) (assignment : JSObject) (memo : Memo).

Lemma dpll_memo_subseteq fuel clauses assignment memo outcome memo' :
  dpll fuel clauses assignment memo = Some (outcome, memo') -> memo ⊆ memo'.
Proof.
  revert assignment memo outcome memo'.
  induction fuel as [|fuel IH]; intros assignment memo outcome memo'; [done|].
  simpl.
  destruct (memo !! JSON_stringify assignment) as [hit|] eqn:Hmiss.
  { by intros [= _ <-]. }
  destruct (satisfied clauses assignment).
  { intros [= _ <-]. by apply insert_subseteq. }
  destruct (conflict clauses assignment).
  { intros [= _ <-]. by apply insert_subseteq. }
  destruct (unitClause clauses assignment) as [clause|].
  { destruct (unit_binding (unitLit clause assignment)) as [k b]. apply IH. }
  destruct (dpll fuel clauses _ memo) as [[[r1|] memo1]|] eqn:Hfirst; [| |done].
  - intros [= _ <-]. apply insert_subseteq_r; [done|]. by eapply IH.
  - destruct (dpll fuel clauses _ memo1) as [[r2 memo2]|] eqn:Hsecond; [|done].
    intros [= _ <-]. apply insert_subseteq_r; [done|].
    trans memo1; by eapply IH.
Qed.

(** X6.  The memo only grows: whatever was stored before a call is stored,
    with the same outcome, after it.  No entry is removed or replaced. *)
Theorem dpll_memo_grows fuel clauses assignment memo outcome memo' :
  dpll fuel clauses assignment memo = Some (outcome, memo') ->
  ∀ key cached, memo !! key = Some cached -> memo' !! key = Some cached.
Proof.
  intros Hrun%dpll_memo_subseteq key cached Hget.
  by eapply lookup_weaken.
Qed.

(** An entry of another assignment survives the call on [[1]]. *)
Lemma dpll_memo_grows_witness :
  (<[JSON_stringify [(KNum 1, true)] := Assignment [(KNum 1, true)]]>
     {[JSON_stringify [(KNum 7, true)] := null]} : Memo)
    !! JSON_stringify [(KNum 7, true)] = Some null.
Proof.
  apply (dpll_memo_grows 2 [[1]] [] {[JSON_stringify [(KNum 7, true)] := null]}
           (Assignment [(KNum 1, true)])); by vm_compute.
Defined.

Lemma length_obj_update (o : JSObject) k v :
  length (obj_update k v o) = length o.
Proof.
  induction o as [|[k1 v1] o IH]; simpl; [done|].
  destruct (decide (k1 = k)); simpl; by rewrite ?IH.
Qed.

Lemma bound_obj_set_ge (o : JSObject) k v :
  (bound o <= bound (obj_set o k v))%nat.
Proof.
  destruct (obj_get o k) as [x|] eqn:Hget.
  - unfold bound, obj_set. rewrite Hget, length_obj_update. lia.
  - rewrite bound_obj_set_fresh by done. lia.
Qed.

(** The entries a call writes are under keys of assignments with at least as
    many bindings as its own. *)
Lemma dpll_writes fuel clauses assignment memo outcome memo' :
  dpll fuel clauses assignment memo = Some (outcome, memo') ->
  ∀ key, memo' !! key ≠ memo !! key ->
    ∃ a', key = JSON_stringify a' ∧ (bound assignment <= bound a')%nat.
Proof.
  revert assignment memo outcome memo'.
  induction fuel as [|fuel IH]; intros assignment memo outcome memo'; [done|].
  simpl.
  assert (∀ (m : Memo) x key,
            <[JSON_stringify assignment := x]> m !! key ≠ memo !! key ->
            (∀ key, m !! key ≠ memo !! key ->
               ∃ a', key = JSON_stringify a' ∧
                     (bound assignment <= bound a')%nat) ->
            ∃ a', key = JSON_stringify a' ∧
                  (bound assignment <= bound a')%nat) as Hstore.
  { intros m x key Hne Hm. rewrite lookup_insert in Hne.
    case_decide as Hkey; [by exists assignment|auto]. }
  destruct (memo !! JSON_stringify assignment) as [hit|] eqn:Hmiss.
  { by intros [= _ <-] key Hne. }
  destruct (satisfied clauses assignment).
  { intros [= _ <-] key Hne. eapply Hstore; [exact Hne|done]. }
  destruct (conflict clauses assignment).
  { intros [= _ <-] key Hne. eapply Hstore; [exact Hne|done]. }
  destruct (unitClause clauses assignment) as [clause|].
  { destruct (unit_binding (unitLit clause assignment)) as [k b].
    intros Hrun key Hne.
    destruct (IH _ _ _ _ Hrun key Hne) as (a' & -> & Hle).
    exists a'. split; [done|]. pose proof (bound_obj_set_ge assignment k b). lia. }
  set (k := variable_key (variable clauses assignment)).
  pose proof (bound_obj_set_ge assignment k true) as Htrue.
  pose proof (bound_obj_set_ge assignment k false) as Hfalse.
  destruct (dpll fuel clauses _ memo) as [[[r1|] memo1]|] eqn:Hfirst; [| |done].
  - intros [= _ <-] key Hne. eapply Hstore; [exact Hne|].
    intros key' Hne'.
    destruct (IH _ _ _ _ Hfirst key' Hne') as (a' & -> & Hle).
    exists a'. split; [done|lia].
  - destruct (dpll fuel clauses _ memo1) as [[r2 memo2]|] eqn:Hsecond; [|done].
    intros [= _ <-] key Hne. eapply Hstore; [exact Hne|].
    intros key' Hne'.
    destruct (decide (memo2 !! key' = memo1 !! key')) as [Heq|Hne2].
    + rewrite Heq in Hne'.
      destruct (IH _ _ _ _ Hfirst key' Hne') as (a' & -> & Hle).
      exists a'. split; [done|lia].
    + destruct (IH _ _ _ _ Hsecond key' Hne2) as (a' & -> & Hle).
      exists a'. split; [done|lia].
Qed.

(** A call that hands over to unit propagation leaves its own key alone. *)
Lemma dpll_delegating_key fuel clauses assignment clause memo outcome memo' :
  unitClause clauses assignment = Some clause ->
  memo !! JSON_stringify assignment = None ->
  (let '(k, b) := unit_binding (unitLit clause assignment) in
   dpll fuel clauses (obj_set assignment k b) memo) = Some (outcome, memo') ->
  memo' !! JSON_stringify assignment = None.
Proof.
  intros Hunit Hmiss.
  destruct (unitClause_unitLit _ _ _ Hunit) as (lit & -> & _ & _ & Hnone).
  simpl. intros Hrun.
  destruct (memo' !! JSON_stringify assignment) as [x|] eqn:Hget; [|done].
  destruct (dpll_writes _ _ _ _ _ _ Hrun (JSON_stringify assignment))
    as (a' & Hkey & Hle); [by rewrite Hget, Hmiss|].
  apply JSON_stringify_inj in Hkey as <-.
  rewrite bound_obj_set_fresh in Hle by done. lia.
Qed.

(** X7.  After a call that missed the memo returns, its outcome is stored
    under the key of its own assignment, except when the call handed over to
    unit propagation (line 51): then its own key is still absent, and only
    the calls further down have stored. *)
Theorem dpll_own_key fuel clauses assignment memo outcome memo' :
  memo !! JSON_stringify assignment = None ->
  dpll fuel clauses assignment memo = Some (outcome, memo') ->
  memo' !! JSON_stringify assignment =
    if delegates clauses assignment then None else Some outcome.
Proof.
  intros Hmiss. destruct fuel as [|fuel]; [done|]. simpl. rewrite Hmiss.
  unfold delegates.
  destruct (satisfied clauses assignment).
  { intros [= <- <-]. by rewrite lookup_insert_eq. }
  destruct (conflict clauses assignment).
  { intros [= <- <-]. by rewrite lookup_insert_eq. }
  destruct (unitClause clauses assignment) as [clause|] eqn:Hunit.
  { rewrite bool_decide_eq_true_2 by done. simpl.
    by apply dpll_delegating_key. }
  rewrite bool_decide_eq_false_2 by (by intros [? ?]). simpl.
  destruct (dpll fuel clauses _ memo) as [[[r1|] memo1]|]; [| |done].
  - intros [= <- <-]. by rewrite lookup_insert_eq.
  - destruct (dpll fuel clauses _ memo1) as [[r2 memo2]|]; [|done].
    intros [= <- <-]. by rewrite lookup_insert_eq.
Qed.

(** The call on [[1]] hands over to unit propagation: no entry for the
    empty assignment afterwards. *)
Lemma dpll_own_key_witness :
  ({[JSON_stringify [(KNum 1, true)] := Assignment [(KNum 1, true)]]} : Memo)
    !! JSON_stringify [] =
  if delegates [[1]] [] then None else Some (Assignment [(KNum 1, true)]).
Proof. apply (dpll_own_key 2 [[1]] [] ∅); by vm_compute. Defined.

(** X8.  Memoisation works: repeating a call on the memo it left returns the
    same outcome and leaves that memo as it is. *)
Theorem dpll_repeat fuel clauses assignment memo outcome memo' :
  dpll fuel clauses assignment memo = Some (outcome, memo') ->
  dpll fuel clauses assignment memo' = Some (outcome, memo').
Proof.
  revert assignment memo outcome memo'.
  induction fuel as [|fuel IH]; intros assignment memo outcome memo'; [done|].
  simpl.
  destruct (memo !! JSON_stringify assignment) as [hit|] eqn:Hmiss.
  { intros [= <- <-]. by rewrite Hmiss. }
  destruct (satisfied clauses assignment) eqn:Hsat.
  { intros [= <- <-]. by rewrite lookup_insert_eq. }
  destruct (conflict clauses assignment) eqn:Hconf.
  { intros [= <- <-]. by rewrite lookup_insert_eq. }
  destruct (unitClause clauses assignment) as [clause|] eqn:Hunit.
  { intros Hrun.
    rewrite (dpll_delegating_key fuel clauses assignment clause memo outcome
               memo' Hunit Hmiss Hrun).
    destruct (unit_binding (unitLit clause assignment)) as [k b].
    by eapply IH. }
  destruct (dpll fuel clauses _ memo) as [[[r1|] memo1]|]; [| |done].
  - intros [= <- <-]. by rewrite lookup_insert_eq.
  - destruct (dpll fuel clauses _ memo1) as [[r2 memo2]|]; [|done].
    intros [= <- <-]. by rewrite lookup_insert_eq.
Qed.

Lemma dpll_repeat_witness :
  let memo' := {[JSON_stringify [(KNum 1, true)] := Assignment [(KNum 1, true)]]} in
  dpll 2 [[1]] [] memo' = Some (Assignment [(KNum 1, true)], memo').
Proof.
  apply (dpll_repeat 2 [[1]] [] ∅). by vm_compute.
Defined.
End memo_writes.

(** ** The tests read the numbered properties only *)

Section same_bindings.
Implicit Types (clauses : list Clause) (a r : JSObject).

Lemma forallb_pointwise {A} (f g : A -> bool) (l : list A) :
  (∀ x, f x = g x) -> forallb f l = forallb g l.
Proof. intros Hfg. induction l as [|x l IH]; simpl; by rewrite ?Hfg, ?IH. Qed.

Lemma existsb_pointwise {A} (f g : A -> bool) (l : list A) :
  (∀ x, f x = g x) -> existsb f l = existsb g l.
Proof. intros Hfg. induction l as [|x l IH]; simpl; by rewrite ?Hfg, ?IH. Qed.

Lemma find_pointwise {A} (f g : A -> bool) (l : list A) :
  (∀ x, f x = g x) -> find f l = find g l.
Proof. intros Hfg. induction l as [|x l IH]; simpl; by rewrite ?Hfg, ?IH. Qed.

(** Two assignments that bind the same variables to the same values pass
    and fail the same tests. *)
Lemma tests_same_vars clauses a (a' : JSObject) :
  (∀ n, obj_get a (KNum n) = obj_get a' (KNum n)) ->
  satisfied clauses a = satisfied clauses a' ∧
  conflict clauses a = conflict clauses a' ∧
  unitClause clauses a = unitClause clauses a' ∧
  variable clauses a = variable clauses a'.
Proof.
  intros Hsame.
  assert (∀ lit, lit_true a lit = lit_true a' lit) as Htrue
    by (intros lit; unfold lit_true; by rewrite Hsame).
  assert (∀ lit, lit_false a lit = lit_false a' lit) as Hfalse
    by (intros lit; unfold lit_false; by rewrite Hsame).
  assert (∀ lit, lit_unassigned a lit = lit_unassigned a' lit) as Hun
    by (intros lit; unfold lit_unassigned; by rewrite Hsame).
  repeat split.
  - apply forallb_pointwise. intros clause. by apply existsb_pointwise.
  - apply existsb_pointwise. intros clause. by apply forallb_pointwise.
  - apply find_pointwise. intros clause. do 2 f_equal.
    apply list_filter_iff. intros lit. by rewrite Hun.
  - unfold variable. f_equal. apply list_filter_iff. intros v.
    by rewrite Hsame.
Qed.

Lemma obj_update_same a k v : obj_get a k = Some v -> obj_update k v a = a.
Proof.
  induction a as [|[k1 v1] a IH]; simpl; [done|].
  destruct (decide (k1 = k)) as [->|Hne]; [by intros [= ->]|].
  intros Hget. by rewrite IH.
Qed.

Lemma no_move_undefined clauses a v :
  no_move clauses a -> no_move clauses (obj_set a KUndefined v).
Proof.
  intros (Hsat & Hconf & Hunit & Hvar). unfold no_move.
  destruct (tests_same_vars clauses (obj_set a KUndefined v) a)
    as (-> & -> & -> & ->); [|done].
  intros n. by rewrite obj_get_set, decide_False.
Qed.

(** With nothing to branch on, the search binds the name [undefined] and
    meets the same assignment again: it never returns. *)
Lemma search_undefined_loop fuel clauses a :
  no_move clauses a -> obj_get a KUndefined = Some true ->
  search fuel clauses a = None.
Proof.
  intros (Hsat & Hconf & Hunit & Hvar) Hget.
  induction fuel as [|fuel IH]; [done|]. simpl.
  rewrite Hsat, Hconf, Hunit, Hvar. simpl.
  unfold obj_set at 1. rewrite Hget, obj_update_same by done. by rewrite IH.
Qed.

Lemma search_no_move fuel clauses a :
  no_move clauses a -> search fuel clauses a = None.
Proof.
  intros Hstuck. destruct fuel as [|fuel]; [done|]. simpl.
  destruct Hstuck as (Hsat & Hconf & Hunit & Hvar) eqn:Hs.
  rewrite Hsat, Hconf, Hunit, Hvar. simpl.
  rewrite search_undefined_loop; [done| |].
  - by apply no_move_undefined.
  - by rewrite obj_get_set, decide_True.
Qed.

(** What the search returns satisfies the formula and extends the
    assignment it started from. *)
Lemma search_Assignment fuel clauses a r :
  search fuel clauses a = Some (Assignment r) ->
  satisfied clauses r = true ∧ extends a r.
Proof.
  revert a. induction fuel as [|fuel IH]; intros a; [done|]. simpl.
  assert (∀ k v, obj_get a k = None -> extends (obj_set a k v) r ->
                 extends a r) as Hstep.
  { intros k v Hnone Hext k' v' Hget. apply Hext.
    rewrite obj_get_set. case_decide; [congruence|done]. }
  destruct (satisfied clauses a) eqn:Hsat.
  { intros [= <-]. split; [done|]. by intros k v. }
  destruct (conflict clauses a) eqn:Hconf; [done|].
  destruct (unitClause clauses a) as [clause|] eqn:Hunit.
  { destruct (unitClause_unitLit _ _ _ Hunit) as (lit & -> & _ & _ & Hnone).
    simpl. intros [Hr Hext]%IH. eauto. }
  destruct (variable clauses a) as [v|] eqn:Hvar; simpl.
  - apply variable_Some in Hvar as [_ Hnone].
    destruct (search fuel clauses (obj_set a (KNum v) true))
      as [[r1|]|] eqn:Hfirst; [| |done].
    + intros [= ->]. apply IH in Hfirst as [Hr Hext]. eauto.
    + intros [Hr Hext]%IH. eauto.
  - assert (no_move clauses a) as Hstuck by done.
    pose proof (search_no_move (S fuel) _ _ Hstuck) as Hnone.
    simpl in Hnone. rewrite Hsat, Hconf, Hunit, Hvar in Hnone.
    simpl in Hnone. by rewrite Hnone.
Qed.

(** A faithful memo gives the memoised call the outcome of the search,
    within the fuel of the search. *)
Lemma search_dpll fuel clauses a memo outcome :
  memo_faithful clauses memo ->
  search fuel clauses a = Some outcome ->
  ∃ memo', dpll fuel clauses a memo = Some (outcome, memo') ∧
           memo_faithful clauses memo'.
Proof.
  revert a memo outcome.
  induction fuel as [|fuel IH]; intros a memo outcome Hmemo Hrun; [done|].
  pose proof Hrun as Hall. simpl in Hrun. simpl.
  destruct (memo !! JSON_stringify a) as [hit|] eqn:Hhit.
  { destruct (Hmemo _ _ Hhit) as [n Hn].
    rewrite (search_deterministic _ _ _ _ _ _ Hn Hall). eauto. }
  destruct (satisfied clauses a).
  { injection Hrun as <-. eexists. split; [done|].
    by eapply memo_faithful_insert. }
  destruct (conflict clauses a).
  { injection Hrun as <-. eexists. split; [done|].
    by eapply memo_faithful_insert. }
  destruct (unitClause clauses a) as [clause|].
  { destruct (unit_binding (unitLit clause a)) as [k b]. by apply IH. }
  set (k := variable_key (variable clauses a)) in *.
  destruct (search fuel clauses (obj_set a k true)) as [[r1|]|] eqn:Hfirst;
    [| |done].
  - injection Hrun as <-.
    destruct (IH _ _ _ Hmemo Hfirst) as (memo1 & -> & Hmemo1).
    eexists. split; [done|]. by eapply memo_faithful_insert.
  - destruct (IH _ _ _ Hmemo Hfirst) as (memo1 & -> & Hmemo1).
    destruct (IH _ _ _ Hmemo1 Hrun) as (memo2 & -> & Hmemo2).
    eexists. split; [done|]. by eapply memo_faithful_insert.
Qed.
End same_bindings.

(** ** What a call returns on a memo of the same formula *)

(** X9.  On a memo that calls on the same formula have filled (the empty
    memo included), an assignment that [dpll] returns satisfies every clause
    and extends the partial assignment the call was given: the bindings
    passed in are never dropped or changed. *)
Theorem dpll_returns_extension clauses memo fuel assignment r memo' :
  populated (eq clauses) memo ->
  dpll fuel clauses assignment memo = Some (Assignment r, memo') ->
  satisfied clauses r = true ∧
  ∀ k v, obj_get assignment k = Some v -> obj_get r k = Some v.
Proof.
  intros Hmemo%populated_faithful Hrun.
  destruct (dpll_search _ _ _ _ _ _ Hmemo Hrun) as [[n Hn] _].
  by apply search_Assignment in Hn.
Qed.

Lemma dpll_returns_extension_witness :
  satisfied [[1; 2]] [(KNum 1, true); (KNum 2, false)] = true ∧
  ∀ k v, obj_get [(KNum 2, false)] k = Some v ->
         obj_get [(KNum 1, true); (KNum 2, false)] k = Some v.
Proof.
  apply (dpll_returns_extension [[1; 2]] ∅ 2 [(KNum 2, false)]
           [(KNum 1, true); (KNum 2, false)]
           {[JSON_stringify [(KNum 1, true); (KNum 2, false)] :=
               Assignment [(KNum 1, true); (KNum 2, false)]]}).
  - apply populated_empty.
  - by vm_compute.
Defined.

(** X10 (idempotence).  Calling [dpll] again on an assignment it returned,
    with the memo it left, returns that same assignment. *)
Theorem dpll_idempotent clauses memo fuel assignment r memo' fuel' :
  populated (eq clauses) memo ->
  dpll fuel clauses assignment memo = Some (Assignment r, memo') ->
  fst <$> dpll (S fuel') clauses r memo' = Some (Assignment r).
Proof.
  intros Hmemo%populated_faithful Hrun.
  destruct (dpll_search _ _ _ _ _ _ Hmemo Hrun) as [[n Hn] Hmemo'].
  apply search_Assignment in Hn as [Hsat _]. simpl.
  destruct (memo' !! JSON_stringify r) as [cached|] eqn:Hhit.
  - destruct (Hmemo' _ _ Hhit) as [[|m] Hm]; [done|].
    simpl in Hm. rewrite Hsat in Hm. by injection Hm as <-.
  - by rewrite Hsat.
Qed.

Lemma dpll_idempotent_witness :
  fst <$> dpll 1 [[1; 2]] [(KNum 1, true); (KNum 2, false)]
            {[JSON_stringify [(KNum 1, true); (KNum 2, false)] :=
                Assignment [(KNum 1, true); (KNum 2, false)]]}
  = Some (Assignment [(KNum 1, true); (KNum 2, false)]).
Proof.
  apply (dpll_idempotent [[1; 2]] ∅ 2 [(KNum 2, false)]).
  - apply populated_empty.
  - by vm_compute.
Defined.

(** X11.  A call with nothing left to do never returns.  When the formula
    is neither satisfied nor in conflict, no clause has a single unassigned
    literal and no variable is unassigned (which takes a literal 0), line 58
    binds the name [undefined] and the recursion meets the same assignment
    again and again, on every memo of the same formula. *)
Theorem dpll_no_move_diverges clauses memo assignment fuel :
  populated (eq clauses) memo ->
  no_move clauses assignment ->
  dpll fuel clauses assignment memo = None.
Proof.
  intros Hmemo%populated_faithful Hstuck.
  destruct (dpll fuel clauses assignment memo) as [[outcome memo']|] eqn:Hrun;
    [|done].
  destruct (dpll_search _ _ _ _ _ _ Hmemo Hrun) as [[n Hn] _].
  by rewrite search_no_move in Hn.
Qed.

Lemma dpll_no_move_diverges_witness :
  dpll 9 [[0; 0]] [(KNum 0, true)] ∅ = None.
Proof.
  apply (dpll_no_move_diverges [[0; 0]] ∅ [(KNum 0, true)] 9).
  - apply populated_empty.
  - by vm_compute.
Defined.

(** X12.  The memo is an optimisation only.  On a memo that calls on the same
    formula have filled, a call returns an outcome exactly when the call on
    the empty memo returns that outcome: a warm memo changes neither the
    verdict nor whether the call returns. *)
Theorem dpll_warm_iff_cold clauses memo assignment outcome :
  populated (eq clauses) memo ->
  (∃ fuel memo', dpll fuel clauses assignment memo = Some (outcome, memo')) <->
  (∃ fuel memo', dpll fuel clauses assignment ∅ = Some (outcome, memo')).
Proof.
  intros Hmemo%populated_faithful.
  pose proof (memo_faithful_empty clauses) as Hempty.
  split; intros (fuel & memo' & Hrun).
  - destruct (dpll_search _ _ _ _ _ _ Hmemo Hrun) as [[n Hn] _].
    destruct (search_dpll _ _ _ _ _ Hempty Hn) as (memo'' & Hrun' & _). eauto.
  - destruct (dpll_search _ _ _ _ _ _ Hempty Hrun) as [[n Hn] _].
    destruct (search_dpll _ _ _ _ _ Hmemo Hn) as (memo'' & Hrun' & _). eauto.
Qed.

(** The memo that the call on [[1]] leaves. *)
Lemma dpll_warm_iff_cold_witness :
  let outcome := Assignment [(KNum 1, true)] in
  let memo := {[JSON_stringify [(KNum 1, true)] := outcome]} in
  (∃ fuel memo', dpll fuel [[1]] [] memo = Some (outcome, memo')) <->
  (∃ fuel memo', dpll fuel [[1]] [] ∅ = Some (outcome, memo')).
Proof.
  intros outcome memo.
  apply (dpll_warm_iff_cold [[1]] memo [] outcome).
  eapply (populated_call _ ∅ 2 [[1]] [] outcome memo);
    [apply populated_empty|reflexivity|by vm_compute].
Defined.

Lemma search_null fuel clauses (a : JSObject) :
  search fuel clauses a = Some null ->
  ∃ r, extends a r ∧ conflict clauses r = true.
Proof.
  revert a. induction fuel as [|fuel IH]; intros a; [done|]. simpl.
  assert (∀ k v r, obj_get a k = None -> extends (obj_set a k v) r ->
                   extends a r) as Hstep.
  { intros k v r Hnone Hext k' v' Hget. apply Hext.
    rewrite obj_get_set. case_decide; [congruence|done]. }
  destruct (satisfied clauses a) eqn:Hsat; [done|].
  destruct (conflict clauses a) eqn:Hconf.
  { intros _. exists a. split; [by intros k v|done]. }
  destruct (unitClause clauses a) as [clause|] eqn:Hunit.
  { destruct (unitClause_unitLit _ _ _ Hunit) as (lit & -> & _ & _ & Hnone).
    simpl. intros (r & Hext & Hr)%IH. eauto. }
  destruct (variable clauses a) as [v|] eqn:Hvar; simpl.
  - apply variable_Some in Hvar as [_ Hnone].
    destruct (search fuel clauses (obj_set a (KNum v) true))
      as [[r1|]|] eqn:Hfirst; [done| |done].
    intros (r & Hext & Hr)%IH. eauto.
  - assert (no_move clauses a) as Hstuck by done.
    pose proof (search_no_move (S fuel) _ _ Hstuck) as Hnone.
    simpl in Hnone. rewrite Hsat, Hconf, Hunit, Hvar in Hnone.
    simpl in Hnone. by rewrite Hnone.
Qed.

(** X13.  A [null] is backed by a conflict: on a memo of the same formula,
    when [dpll] returns [null] the assignment it was given does not satisfy
    the formula, and some assignment that extends it falsifies every literal
    of one clause. *)
Theorem dpll_null_has_conflict clauses memo fuel assignment memo' :
  populated (eq clauses) memo ->
  dpll fuel clauses assignment memo = Some (null, memo') ->
  satisfied clauses assignment = false ∧
  ∃ r, (∀ k v, obj_get assignment k = Some v -> obj_get r k = Some v) ∧
       Exists (Forall (fun lit =>
                         obj_get r (KNum (Z.abs lit)) = Some (lit <? 0)))
              clauses.
Proof.
  intros Hmemo%populated_faithful Hrun.
  destruct (dpll_search _ _ _ _ _ _ Hmemo Hrun) as [[n Hn] _]. split.
  - destruct n as [|n]; [done|]. simpl in Hn.
    by destruct (satisfied clauses assignment).
  - apply search_null in Hn as (r & Hext & Hr). exists r. split; [done|].
    unfold conflict in Hr. apply existsb_exists in Hr as (clause & Hin & Hc).
    apply Exists_exists. exists clause. split; [by apply list_elem_of_In|].
    apply Forall_forall. intros lit Hlit%list_elem_of_In.
    rewrite forallb_forall in Hc. apply Hc in Hlit.
    by apply bool_decide_eq_true in Hlit.
Qed.

Lemma dpll_null_has_conflict_witness :
  satisfied [[1]; [-1]] [] = false ∧
  ∃ r, (∀ k v, obj_get [] k = Some v -> obj_get r k = Some v) ∧
       Exists (Forall (fun lit =>
                         obj_get r (KNum (Z.abs lit)) = Some (lit <? 0)))
              [[1]; [-1]].
Proof.
  apply (dpll_null_has_conflict [[1]; [-1]] ∅ 2 []
           {[JSON_stringify [(KNum 1, true)] := null]}).
  - apply populated_empty.
  - by vm_compute.
Defined.

(** ** One literal and its negation *)

Lemma obj_set_empty k v : obj_set [] k v = [(k, v)].
Proof. unfold obj_set. simpl. by destruct (isArrayIndex k). Qed.

Lemma dpll_S fuel clauses assignment memo :
  dpll (S fuel) clauses assignment memo =
  match memo !! JSON_stringify assignment with
  | Some cached => Some (cached, memo)
  | None =>
      if satisfied clauses assignment then
        Some (Assignment assignment,
              <[JSON_stringify assignment := Assignment assignment]> memo)
      else if conflict clauses assignment then
        Some (null, <[JSON_stringify assignment := null]> memo)
      else
        match unitClause clauses assignment with
        | Some clause =>
            let '(k, b) := unit_binding (unitLit clause assignment) in
            dpll fuel clauses (obj_set assignment k b) memo
        | None =>
            let k := variable_key (variable clauses assignment) in
            match dpll fuel clauses (obj_set assignment k true) memo with
            | None => None
            | Some (Assignment r, memo1) =>
                Some (Assignment r,
                      <[JSON_stringify assignment := Assignment r]> memo1)
            | Some (null, memo1) =>
                match dpll fuel clauses (obj_set assignment k false) memo1 with
                | None => None
                | Some (result, memo2) =>
                    Some (result, <[JSON_stringify assignment := result]> memo2)
                end
            end
        end
  end.
Proof. reflexivity. Qed.

(** On the empty assignment a formula that starts with a one-literal clause
    and has no empty clause is handed over to unit propagation. *)
Lemma unit_formula_first_call fuel (lit : Z) (rest : list Clause) memo :
  memo !! JSON_stringify [] = None ->
  Forall (fun clause => clause ≠ []) rest ->
  dpll (S fuel) ([lit] :: rest) [] memo =
  dpll fuel ([lit] :: rest) [(KNum (Z.abs lit), 0 <? lit)] memo.
Proof.
  intros Hmiss Hrest. rewrite dpll_S, Hmiss.
  assert (satisfied ([lit] :: rest) [] = false) as -> by done.
  assert (conflict ([lit] :: rest) [] = false) as ->.
  { unfold conflict. simpl. induction Hrest as [|clause rest Hne _ IH]; [done|].
    simpl. rewrite IH. by destruct clause. }
  assert (unitClause ([lit] :: rest) [] = Some [lit]) as -> by done.
  assert (unitLit [lit] [] = Some lit) as -> by done.
  simpl. by rewrite obj_set_empty.
Qed.

(** X14.  For every literal [lit], [dpll] on the formula [[lit]] returns the
    assignment that binds the variable of [lit] to its polarity; and when
    [lit] is not 0, [dpll] on [[lit], [-lit]] returns [null] (from the empty
    assignment and memo). *)
Theorem dpll_literal_and_negation fuel (lit : Z) :
  fst <$> dpll (2 + fuel) [[lit]] [] ∅ =
    Some (Assignment [(KNum (Z.abs lit), 0 <? lit)]) ∧
  (lit ≠ 0 -> fst <$> dpll (2 + fuel) [[lit]; [-lit]] [] ∅ = Some null).
Proof.
  split.
  - apply (dpll_outcome_mono 2); [|lia].
    rewrite unit_formula_first_call by done. rewrite dpll_S, lookup_empty.
    assert (satisfied [[lit]] [(KNum (Z.abs lit), 0 <? lit)] = true) as ->;
      [|done].
    unfold satisfied, lit_true. simpl.
    by rewrite decide_True, bool_decide_eq_true_2.
  - intros Hlit. apply (dpll_outcome_mono 2); [|lia].
    rewrite unit_formula_first_call by (by repeat constructor).
    rewrite dpll_S, lookup_empty.
    set (a := [(KNum (Z.abs lit), 0 <? lit)]).
    assert (lit_true a (- lit) = false) as Hneg.
    { unfold lit_true, a. simpl. rewrite Z.abs_opp, decide_True by done.
      apply bool_decide_eq_false. intros [= Heq].
      destruct (Z.ltb_spec 0 lit), (Z.ltb_spec 0 (- lit)); done || lia. }
    assert (lit_false a (- lit) = true) as Hfalse.
    { unfold lit_false, a. simpl. rewrite Z.abs_opp, decide_True by done.
      apply bool_decide_eq_true. f_equal.
      destruct (Z.ltb_spec 0 lit), (Z.ltb_spec (- lit) 0); done || lia. }
    assert (satisfied [[lit]; [- lit]] a = false) as ->.
    { unfold satisfied. simpl. rewrite Hneg. simpl. apply andb_false_r. }
    assert (conflict [[lit]; [- lit]] a = true) as ->; [|done].
    unfold conflict. simpl. rewrite Hfalse. simpl. apply orb_true_r.
Qed.

Lemma dpll_literal_and_negation_witness :
  fst <$> dpll 2 [[-3]] [] ∅ = Some (Assignment [(KNum 3, false)]) ∧
  fst <$> dpll 2 [[-3]; [3]] [] ∅ = Some null.
Proof.
  destruct (dpll_literal_and_negation 0 (-3)) as [Hone Htwo].
  split; [exact Hone|]. apply Htwo. lia.
Defined.
